(** * LoopTrack: the replica exchange engine and the local record store

    A shallow embedding of [src/cloudSync.js] (push, pull, exchange through a
    shared folder) and of the merge cycle of [src/sync.js], with the
    properties of the specification proved about them.

    Modelling choices, all visible in the definitions below:

    - the file system is a finite map from directory paths to directories,
      a directory a finite map from entry names to entries; [path.join dir
      name] is the pair of the two, so entry names are single path
      components;
    - an entry is a regular file with its content, or [Blocked]: an entry
      that exists and is listed but can be neither read nor overwritten (a
      sub-directory of that name, a file without permission);
    - a JavaScript exception is the [Throw] outcome of a computation in the
      monad [js], [try/catch] is [try_catch]; the state a computation leaves
      behind when it throws is kept;
    - every file access and console line is appended to a trace, so that
      "never reads or writes" is a statement about the trace;
    - [JSON.parse], [JSON.stringify], the wall clock, the first-run prompt and
      the external usage tool are not code of this repository: they are
      section variables or parameters of the functions that use them;
    - the directories of the tree can be created, listed and renamed into:
      [mkdirSync], [readdirSync] and [renameSync] fail only where the tree
      says so (a missing directory, a missing entry); a path that exists and
      is no directory, or a directory without permission, is not a state of
      this model;
    - a JavaScript object used as a map is a [gmap] over its own properties
      together with its prototype: a lookup that finds no own property goes
      on to the prototype, and an assignment to ["__proto__"] can replace
      the prototype instead of creating a property;
    - a record file that parses gives a record set with its sync log, an
      object without one, or [null]; the stored records are objects, and the
      properties of a raw session that the code inspects are absent, [null]
      or strings, as section 3 of the specification types them. *)

From Stdlib Require Import Ascii String.
From stdpp Require Import gmap strings list fin_maps pretty.

Open Scope string_scope.
Open Scope list_scope.
Set Warnings "-register-all,-clear-no-such-hyp".

(** ** The host: file system, console, clock *)

Module Fs.

Inductive entry : Type :=
  | File (content : string)
  | Blocked.

#[global] Instance entry_eq_dec : EqDecision entry.
Proof. solve_decision. Defined.

Abbreviation directory := (gmap string entry).
Abbreviation tree := (gmap string (gmap string entry)).

(** A path is a directory, or [path.join dir name]. *)
Inductive path : Type :=
  | Dir (dir : string)
  | Join (dir : string) (name : string).

#[global] Instance path_eq_dec : EqDecision path.
Proof. solve_decision. Defined.

Inductive event : Type :=
  | EvRead (p : path)
  | EvWrite (p : path)
  | EvConsole (line : string).

Record World : Type := mkWorld {
  files : tree;
  ticks : nat;
  trace : list event
}.

Definition set_files (f : tree) (w : World) : World :=
  mkWorld f (ticks w) (trace w).

Definition emit (e : event) (w : World) : World :=
  mkWorld (files w) (ticks w) (trace w ++ [e]).

Definition lookup_entry (t : tree) (dir name : string) : option entry :=
  t !! dir ≫= λ d, d !! name.

Definition store_entry (t : tree) (dir name : string) (e : entry) : tree :=
  match t !! dir with
  | Some d => <[dir := <[name := e]> d]> t
  | None => t
  end.

Definition remove_entry (t : tree) (dir name : string) : tree :=
  match t !! dir with
  | Some d => <[dir := delete name d]> t
  | None => t
  end.

(** *** Computations that may throw *)

Inductive outcome (A : Type) : Type :=
  | Ok (a : A)
  | Throw (err : string).
Arguments Ok {A} a.
Arguments Throw {A} err.

Definition js (A : Type) : Type := World → outcome A * World.

Definition ret {A} (a : A) : js A := λ w, (Ok a, w).

Definition throw {A} (err : string) : js A := λ w, (Throw err, w).

Definition bind {A B} (m : js A) (k : A → js B) : js B :=
  λ w, match m w with
       | (Ok a, w') => k a w'
       | (Throw e, w') => (Throw e, w')
       end.

Definition try_catch {A} (body : js A) (handler : string → js A) : js A :=
  λ w, match body w with
       | (Ok a, w') => (Ok a, w')
       | (Throw e, w') => handler e w'
       end.

Definition when (b : bool) (m : js unit) : js unit :=
  if b then m else ret tt.

Fixpoint for_of {A} (xs : list A) (body : A → js unit) : js unit :=
  match xs with
  | [] => ret tt
  | x :: rest => bind (body x) (λ _, for_of rest body)
  end.

End Fs.

Import Fs.

Declare Scope js_scope.
Delimit Scope js_scope with js.
Notation "x <- m ;; k" := (bind m (λ x, k))
  (at level 100, m at next level, right associativity) : js_scope.
Notation "m ;; k" := (bind m (λ _, k))
  (at level 100, right associativity) : js_scope.
Open Scope js_scope.

Module Host.

(** [fs.existsSync]: true for directories and for entries of any kind. *)
Definition existsSync (p : path) : js bool := λ w,
  match p with
  | Dir d => (Ok (bool_decide (is_Some (files w !! d))), w)
  | Join d n => (Ok (bool_decide (is_Some (lookup_entry (files w) d n))), w)
  end.

(** [fs.mkdirSync(dir, { recursive: true })], where the directory can be
    created. *)
Definition mkdirSync (dir : string) : js unit := λ w,
  match files w !! dir with
  | Some _ => (Ok tt, w)
  | None => (Ok tt, set_files (<[dir := ∅]> (files w)) w)
  end.

(** [fs.readdirSync]: the names of the entries of a directory that can be
    listed. *)
Definition readdirSync (dir : string) : js (list string) := λ w,
  match files w !! dir with
  | Some d => (Ok (map_to_list d).*1, w)
  | None => (Throw "ENOENT", w)
  end.

(** [fs.readFileSync(p, 'utf8')]. *)
Definition readFileSync (dir name : string) : js string := λ w,
  let w := emit (EvRead (Join dir name)) w in
  match lookup_entry (files w) dir name with
  | Some (File c) => (Ok c, w)
  | Some Blocked => (Throw "EACCES", w)
  | None => (Throw "ENOENT", w)
  end.

(** [fs.writeFileSync]: replaces the whole content in one operation; the
    directory has to exist. *)
Definition writeFileSync (dir name content : string) : js unit := λ w,
  let w := emit (EvWrite (Join dir name)) w in
  match files w !! dir with
  | None => (Throw "ENOENT", w)
  | Some d =>
      match d !! name with
      | Some Blocked => (Throw "EACCES", w)
      | _ => (Ok tt, set_files (store_entry (files w) dir name (File content)) w)
      end
  end.

(** [fs.copyFileSync(src, dest)]: a read of [src] and a whole-file write of
    [dest]. *)
Definition copyFileSync (sdir sname ddir dname : string) : js unit :=
  content <- readFileSync sdir sname ;;
  writeFileSync ddir dname content.

(** [fs.renameSync] inside one directory that can be written. *)
Definition renameSync (dir old new : string) : js unit := λ w,
  match lookup_entry (files w) dir old with
  | None => (Throw "ENOENT", w)
  | Some e =>
      let w := emit (EvWrite (Join dir old)) (emit (EvWrite (Join dir new)) w) in
      (Ok tt, set_files (store_entry (remove_entry (files w) dir old) dir new e) w)
  end.

Definition console (line : string) : js unit := λ w,
  (Ok tt, emit (EvConsole line) w).

(** [new Date().toISOString()]: the reading of a clock that is consulted once
    per call. *)
Definition now (clock : nat → string) : js string := λ w,
  (Ok (clock (ticks w)), mkWorld (files w) (S (ticks w)) (trace w)).

End Host.

Import Host.

(** ** src/cloudSync.js *)

Module CloudSync.

(** [f.startsWith(p)] and [f.endsWith(s)]. *)
Definition startsWith (s p : string) : bool := String.prefix p s.

Fixpoint endsWith (s suffix : string) : bool :=
  if String.eqb s suffix then true
  else match s with
       | EmptyString => false
       | String _ s' => endsWith s' suffix
       end.

(** The template literal [`usage-${machineId}.json`]. *)
Definition usage_file (machineId : string) : string :=
  "usage-" +:+ machineId +:+ ".json".

Section WithJSON.

(** [JSON.parse(content)] in [syncFromCloud] is called for its exception
    only: [JSON_parses content] is false when it throws. *)
Variable JSON_parses : string → bool.

Definition JSON_parse (content : string) : js unit :=
  if JSON_parses content then ret tt else throw "SyntaxError".

Definition syncToCloud (localDataDir cloudDir machineId : string) : js unit :=
  let file := usage_file machineId in
  cloudExists <- existsSync (Dir cloudDir) ;;
  when (negb cloudExists) (mkdirSync cloudDir) ;;
  localExists <- existsSync (Join localDataDir file) ;;
  when localExists (copyFileSync localDataDir file cloudDir file).

(** The body of the [for] loop of [syncFromCloud]. *)
Definition pull_file (localDataDir cloudDir machineId file : string) : js unit :=
  if bool_decide (file = usage_file machineId) then ret tt
  else
    try_catch
      (content <- readFileSync cloudDir file ;;
       JSON_parse content ;;
       copyFileSync cloudDir file localDataDir file)
      (λ err, console ("Failed to sync " +:+ file +:+ ": " +:+ err)).

Definition syncFromCloud (localDataDir cloudDir machineId : string) : js unit :=
  cloudExists <- existsSync (Dir cloudDir) ;;
  if negb cloudExists then ret tt
  else
    localExists <- existsSync (Dir localDataDir) ;;
    when (negb localExists) (mkdirSync localDataDir) ;;
    entries <- readdirSync cloudDir ;;
    let files :=
      filter (λ f, startsWith f "usage-" && endsWith f ".json" = true) entries in
    for_of files (pull_file localDataDir cloudDir machineId).

Definition syncWithCloud (localDataDir cloudDir machineId : string) : js unit :=
  syncToCloud localDataDir cloudDir machineId ;;
  syncFromCloud localDataDir cloudDir machineId.

End WithJSON.

End CloudSync.

(** ** src/sync.js *)

Module Sync.

(** A property of a raw session object that the code inspects: absent
    ([undefined]), [null], or a string (section 3 of the specification types
    identifiers, paths and timestamps as strings). *)
Inductive field : Type :=
  | Absent
  | Null
  | Str (s : string).

(** Any other JSON value; the merge copies such values and never looks into
    them. A number is kept as its decimal literal [m * 10^e]. *)
Inductive json : Type :=
  | JNull
  | JBool (b : bool)
  | JNum (m e : Z)
  | JStr (s : string)
  | JArr (items : list json)
  | JObj (members : list (string * json)).

(** A stored record is a plain object: a finite map from property names to
    values. *)
Abbreviation object := (gmap string json).

(** One raw observation of the usage tool. [s_rest] holds the properties
    other than the four named ones (token counts, cost, last activity, ...). *)
Record Session : Type := mkSession {
  s_sessionId : field;
  s_id : field;
  s_projectPath : field;
  s_startTime : field;
  s_rest : object
}.

Record SyncEvent : Type := mkSyncEvent {
  timestamp : string;
  newSessions : nat;
  updatedSessions : nat;
  totalSessions : nat
}.

Record RecordSet : Type := mkRecordSet {
  sessions : gmap string object;
  syncs : list SyncEvent;
  lastSync : option string
}.

(** What [JSON.parse] of a record file gives, as far as the code tells the
    shapes apart: an object with a [syncs] array (a missing [sessions] reads
    as the empty object, in [{ ...existing.sessions }] as in
    [data.sessions || {}]); an object whose [syncs] is missing or cannot be
    spread, the shape of a file that only holds [sessions] and [lastSync];
    and [null]. *)
Inductive Stored : Type :=
  | Complete (d : RecordSet)
  | WithoutSyncs (found : gmap string object) (last : option string)
  | NotAnObject.

(** [stored.sessions]: [None] when reading the property throws. *)
Definition stored_sessions (stored : Stored) : option (gmap string object) :=
  match stored with
  | Complete d => Some (sessions d)
  | WithoutSyncs found _ => Some found
  | NotAnObject => None
  end.

(** [stored.syncs], when it can be spread. *)
Definition stored_syncs (stored : Stored) : option (list SyncEvent) :=
  match stored with
  | Complete d => Some (syncs d)
  | _ => None
  end.

(** What [sync] resolves to: [{ ...data, machineId }], or
    [{ ...existing, machineId }] when there is nothing to merge. [data] holds
    the value that is spread. *)
Record SyncResult : Type := mkSyncResult {
  data : Stored;
  machineId : string
}.

(** *** Plain objects used as maps

    [sessions] in [sync] and [allSessions] in [loadAllData] are object
    literals indexed by session id. Such an object has its own properties
    and a prototype: [Object.prototype] to begin with ([None] below), and
    the record that an assignment to ["__proto__"] has put in its place. *)

(** JavaScript truthiness of a JSON value. *)
Definition json_truthy (v : json) : bool :=
  match v with
  | JNull => false
  | JBool b => b
  | JNum m _ => negb (m =? 0)%Z
  | JStr s => negb (String.eqb s "")
  | JArr _ | JObj _ => true
  end.

(** The properties of [Object.prototype]: functions, and the accessor
    [__proto__], whose getter returns the prototype of the receiver. All of
    them read as truthy. *)
Definition object_prototype_names : list string :=
  ["constructor"; "__defineGetter__"; "__defineSetter__"; "hasOwnProperty";
   "__lookupGetter__"; "__lookupSetter__"; "isPrototypeOf";
   "propertyIsEnumerable"; "toString"; "valueOf"; "__proto__"; "toLocaleString"].

Definition in_object_prototype (key : string) : bool :=
  bool_decide (key ∈ object_prototype_names).

(** [o[key]] is truthy, for a [key] that is no own property of [o]: the
    lookup goes to the prototype, and from a record to [Object.prototype]. *)
Definition inherited (proto : option object) (key : string) : bool :=
  match proto with
  | Some record =>
      match record !! key with
      | Some v => json_truthy v
      | None => in_object_prototype key
      end
  | None => in_object_prototype key
  end.

(** [o[key]] is truthy. The own properties of [o] are records, which are
    objects. *)
Definition holds (own : gmap string object) (proto : option object) (key : string)
    : bool :=
  match own !! key with
  | Some _ => true
  | None => inherited proto key
  end.

(** [o[key] = record] reaches the setter of [Object.prototype.__proto__]:
    [key] is ["__proto__"], [o] has no own property of that name, and neither
    has a record that was made its prototype. The setter makes [record] the
    prototype of [o]; in every other case the assignment creates or updates
    the own property [key]. *)
Definition sets_prototype (own : gmap string object) (proto : option object)
    (key : string) : bool :=
  String.eqb key "__proto__"
  && bool_decide (own !! key = None)
  && match proto with
     | Some record => bool_decide (record !! "__proto__" = None)
     | None => true
     end.

Definition assign_own (key : string) (record : object) (own : gmap string object)
    (proto : option object) : gmap string object :=
  if sets_prototype own proto key then own else <[key := record]> own.

Definition assign_proto (key : string) (record : object) (own : gmap string object)
    (proto : option object) : option object :=
  if sets_prototype own proto key then Some record else proto.

(** The parsed output of the usage tool; its [sessions] property may be
    missing. *)
Record Ccusage : Type := mkCcusage {
  cc_sessions : option (list Session)
}.

(** JavaScript truthiness of an inspected property. *)
Definition truthy (f : field) : bool :=
  match f with
  | Str s => negb (String.eqb s "")
  | _ => false
  end.

(** [a || b]. *)
Definition js_or (a b : field) : field := if truthy a then a else b.

(** String conversion, as in a template literal or a property key. *)
Definition to_string (f : field) : string :=
  match f with
  | Absent => "undefined"
  | Null => "null"
  | Str s => s
  end.

Definition to_json (f : field) : option json :=
  match f with
  | Absent => None
  | Null => Some JNull
  | Str s => Some (JStr s)
  end.

Definition set_property (name : string) (f : field) (o : object) : object :=
  match to_json f with
  | Some v => <[name := v]> o
  | None => delete name o
  end.

(** The own properties of a raw session, as spread by [{ ...session }]. *)
Definition spread (s : Session) : object :=
  set_property "sessionId" (s_sessionId s)
    (set_property "id" (s_id s)
      (set_property "projectPath" (s_projectPath s)
        (set_property "startTime" (s_startTime s) (s_rest s)))).

Definition DATA_DIR : string := "data".
Definition IDENTITY_DIR : string := "~/.looptrack".
Definition IDENTITY_FILE : string := "identity.json".
Definition OLD_DATA_FILE : string := "usage.json".

Definition getDataFile (machineId : string) : string :=
  "usage-" +:+ machineId +:+ ".json".

(** [s.replace(/^-/, '/')] and [s.replace(/-/g, '/')]. *)
Definition replace_leading_dash (s : string) : string :=
  match s with
  | String "-"%char s' => String "/"%char s'
  | _ => s
  end.

Fixpoint replace_all_dashes (s : string) : string :=
  match s with
  | EmptyString => EmptyString
  | String "-"%char s' => String "/"%char (replace_all_dashes s')
  | String c s' => String c (replace_all_dashes s')
  end.

Definition decodeProjectPath (sessionId : field) : field :=
  match sessionId with
  | Str s =>
      if negb (truthy sessionId) || negb (String.prefix "-" s) then Null
      else Str (replace_all_dashes (replace_leading_dash s))
  | _ => Null
  end.

(** [s.split('/')]. *)
Fixpoint split_slash (s : string) : list string :=
  match s with
  | EmptyString => [EmptyString]
  | String "/"%char s' => EmptyString :: split_slash s'
  | String c s' =>
      match split_slash s' with
      | x :: xs => String c x :: xs
      | [] => [String c EmptyString]
      end
  end.

Definition getProjectName (projectPath : field) : string :=
  match projectPath with
  | Str p =>
      if negb (truthy projectPath) then "Unknown"
      else
        let popped := List.last (split_slash p) EmptyString in
        if String.eqb popped "" then p else popped
  | _ => "Unknown"
  end.

(** [session.sessionId || session.id ||
     `${session.projectPath}-${session.startTime}`], used as a property key. *)
Definition session_key (s : Session) : string :=
  to_string
    (js_or (s_sessionId s)
       (js_or (s_id s)
          (Str (to_string (s_projectPath s) +:+ "-" +:+ to_string (s_startTime s))))).

(** [f !== lit] for a string literal [lit]. *)
Definition differs_from (f : field) (lit : string) : bool :=
  match f with
  | Str s => negb (String.eqb s lit)
  | _ => true
  end.

(** The conditional of lines 180-182. *)
Definition derived_projectPath (s : Session) : field :=
  if truthy (s_projectPath s) && differs_from (s_projectPath s) "Unknown Project"
  then s_projectPath s
  else decodeProjectPath (s_sessionId s).

(** The object literal of lines 184-189. *)
Definition stored_record (s : Session) (syncedAt : string) : object :=
  let projectPath := derived_projectPath s in
  <["syncedAt" := JStr syncedAt]>
    (<["projectName" := JStr (getProjectName projectPath)]>
       (<["projectPath" := default JNull (to_json projectPath)]> (spread s))).

Section WithBuiltins.

Variable clock : nat → string.
(** [JSON.parse] of a record file ([None]: it throws) and [JSON.stringify]
    of a record set. *)
Variable parse_data : string → option Stored.
Variable stringify_data : RecordSet → string.
(** [JSON.parse(...).machineId] of the identity file and
    [JSON.stringify({ machineId })]. *)
Variable parse_identity : string → option field.
Variable stringify_identity : string → string.

Definition getMachineId : js field :=
  r <- try_catch
         (present <- existsSync (Join IDENTITY_DIR IDENTITY_FILE) ;;
          if present then
            content <- readFileSync IDENTITY_DIR IDENTITY_FILE ;;
            match parse_identity content with
            | Some machineId => ret (Some machineId)
            | None => throw "SyntaxError"
            end
          else ret None)
         (λ err, console ("Warning: Could not load identity: " +:+ err) ;;
                 ret None) ;;
  ret (default Null r).

Definition saveMachineId (machineId : string) : js unit :=
  present <- existsSync (Dir IDENTITY_DIR) ;;
  when (negb present) (mkdirSync IDENTITY_DIR) ;;
  writeFileSync IDENTITY_DIR IDENTITY_FILE (stringify_identity machineId).

Definition empty_data : RecordSet := mkRecordSet ∅ [] None.

Definition loadExistingData (machineId : string) : js Stored :=
  let dataFile :=
    if truthy (Str machineId) then Some (getDataFile machineId) else None in
  r <- try_catch
         (match dataFile with
          | Some file =>
              present <- existsSync (Join DATA_DIR file) ;;
              if present then
                content <- readFileSync DATA_DIR file ;;
                match parse_data content with
                | Some parsed => ret (Some parsed)
                | None => throw "SyntaxError"
                end
              else ret None
          | None => ret None
          end)
         (λ err, console ("Warning: Could not load existing data: " +:+ err) ;;
                 ret None) ;;
  ret (default (Complete empty_data) r).

Definition saveData (d : RecordSet) (machineId : string) : js unit :=
  present <- existsSync (Dir DATA_DIR) ;;
  when (negb present) (mkdirSync DATA_DIR) ;;
  writeFileSync DATA_DIR (getDataFile machineId) (stringify_data d).

(** [runCcusage]: [tool] is what running the tool and parsing its output
    gives, [None] when either throws. *)
Definition runCcusage (tool : option Ccusage) : js (option Ccusage) :=
  match tool with
  | Some out => ret (Some out)
  | None =>
      console "Error running ccusage" ;;
      console "Make sure you have Claude Code installed and have some usage data." ;;
      ret None
  end.

Definition migrateOldData (machineId : string) : js unit :=
  oldPresent <- existsSync (Join DATA_DIR OLD_DATA_FILE) ;;
  when oldPresent
    (let newFile := getDataFile machineId in
     newPresent <- existsSync (Join DATA_DIR newFile) ;;
     when (negb newPresent)
       (console ("Migrating old usage.json to " +:+ newFile +:+ "...") ;;
        renameSync DATA_DIR OLD_DATA_FILE newFile)).

(** The loop variables of the merge: [sessions], as its own properties and
    its prototype ([None] for [Object.prototype]), [newCount] and
    [updatedCount]. *)
Record Merging : Type := mkMerging {
  m_sessions : gmap string object;
  m_proto : option object;
  newCount : nat;
  updatedCount : nat
}.

(** One iteration of the [for] loop of lines 172-190: [!sessions[id]]
    decides the count, then [sessions[id] = { ... }] stores the record. *)
Definition merge_session (session : Session) (acc : Merging) : js Merging :=
  let key := session_key session in
  let known := holds (m_sessions acc) (m_proto acc) key in
  let newCount' := if known then newCount acc else S (newCount acc) in
  let updatedCount' := if known then S (updatedCount acc) else updatedCount acc in
  syncedAt <- now clock ;;
  let record := stored_record session syncedAt in
  ret (mkMerging (assign_own key record (m_sessions acc) (m_proto acc))
         (assign_proto key record (m_sessions acc) (m_proto acc))
         newCount' updatedCount').

Fixpoint merge_loop (incoming : list Session) (acc : Merging) : js Merging :=
  match incoming with
  | [] => ret acc
  | session :: rest =>
      acc' <- merge_session session acc ;;
      merge_loop rest acc'
  end.

(** Lines 167-204: the merge of the incoming sessions into the loaded set.
    It yields the final loop variables and the record set [data] built from
    them. Reading [existing.sessions] throws when [existing] is [null];
    spreading [existing.syncs] throws, after the loop and before the clock is
    read for the event, when there is no such array. *)
Definition merge (existing : Stored) (incoming : list Session)
    : js (Merging * RecordSet) :=
  match stored_sessions existing with
  | None => throw "TypeError"
  | Some found =>
      merged <- merge_loop incoming (mkMerging found None 0 0) ;;
      match stored_syncs existing with
      | None => throw "TypeError"
      | Some log =>
          stamp <- now clock ;;
          last <- now clock ;;
          ret (merged,
               mkRecordSet (m_sessions merged)
                 (log ++
                    [mkSyncEvent stamp (newCount merged) (updatedCount merged)
                       (size (m_sessions merged))])
                 (Some last))
      end
  end.

(** The counts a cycle reports are those of the event it appends to the
    log. *)
Definition report (d : RecordSet) : option SyncEvent := last (syncs d).

(** [sync(providedMachineId)]. [answer] is what the first-run prompt
    resolves to, [tool] what the usage tool returns. *)
Definition sync (tool : option Ccusage) (answer : string)
    (providedMachineId : field) : js SyncResult :=
  stored <- (if truthy providedMachineId then ret providedMachineId
             else getMachineId) ;;
  machineId <-
    (if truthy stored then ret (to_string stored)
     else
       console "First time setup: Please identify this machine." ;;
       saveMachineId answer ;;
       console ("Machine ID set to: " +:+ answer) ;;
       migrateOldData answer ;;
       ret answer) ;;
  console ("Syncing usage data for " +:+ machineId +:+ "...") ;;
  existing <- loadExistingData machineId ;;
  ccusageData <- runCcusage tool ;;
  match ccusageData ≫= cc_sessions with
  | None =>
      console "No data to sync." ;;
      ret (mkSyncResult existing machineId)
  | Some incoming =>
      result <- merge existing incoming ;;
      let '(merged, d) := result in
      saveData d machineId ;;
      console ("Synced: " +:+ pretty (newCount merged) +:+ " new, "
               +:+ pretty (updatedCount merged) +:+ " updated, "
               +:+ pretty (size (m_sessions merged)) +:+ " total sessions") ;;
      ret (mkSyncResult (Complete d) machineId)
  end.

End WithBuiltins.

End Sync.

(** * Vocabulary of the statements *)

Module ExchangeSpec.

Import CloudSync.

(** [mkdir -p]: the tree with [dir] present. *)
Definition ensure_dir (dir : string) (t : tree) : tree :=
  match t !! dir with
  | Some _ => t
  | None => <[dir := ∅]> t
  end.

(** The entry names a pull looks at: [usage-*.json]. *)
Definition usage_pattern (name : string) : bool :=
  startsWith name "usage-" && endsWith name ".json".

(** What the local directory holds under [name] after the loop of
    [syncFromCloud] has seen [name], when it held [old] before and the shared
    directory is [cloud]. *)
Definition pulled (JSON_parses : string → bool) (cloud : directory)
    (own name : string) (old : option entry) : option entry :=
  match cloud !! name with
  | Some (File content) =>
      if bool_decide (name ≠ own) && JSON_parses content
         && bool_decide (old ≠ Some Blocked)
      then Some (File content)
      else old
  | _ => old
  end.

(** The event reads or writes an entry called [name], in any directory. *)
Definition touches (name : string) (e : event) : bool :=
  match e with
  | EvRead (Join _ n) | EvWrite (Join _ n) => bool_decide (n = name)
  | _ => false
  end.

End ExchangeSpec.

Module SyncSpec.

Import Sync.

(** The keys of an incoming batch, in order. *)
Definition keys (incoming : list Session) : list string :=
  session_key <$> incoming.

(** A stored record without its [syncedAt] property. *)
Definition content (record : object) : object := delete "syncedAt" record.

(** One iteration of the merge loop when the clock reads [syncedAt], and the
    whole loop started when the clock has been read [t] times. *)
Definition merged_session (syncedAt : string) (session : Session) (acc : Merging)
    : Merging :=
  let key := session_key session in
  let known := holds (m_sessions acc) (m_proto acc) key in
  let record := stored_record session syncedAt in
  mkMerging (assign_own key record (m_sessions acc) (m_proto acc))
    (assign_proto key record (m_sessions acc) (m_proto acc))
    (if known then newCount acc else S (newCount acc))
    (if known then S (updatedCount acc) else updatedCount acc).

Fixpoint merged (clock : nat → string) (t : nat) (incoming : list Session)
    (acc : Merging) : Merging :=
  match incoming with
  | [] => acc
  | session :: rest =>
      merged clock (S t) rest (merged_session (clock t) session acc)
  end.

(** A key that names no property of [Object.prototype]. *)
Definition ordinary (key : string) : bool := negb (in_object_prototype key).

(** A record that is made the prototype answers for ["__proto__"] itself
    when it has an own property of that name. *)
Definition answers_proto (proto : option object) : bool :=
  match proto with
  | Some record => bool_decide (is_Some (record !! "__proto__"))
  | None => false
  end.

(** Whether a batch, merged into an object without an own property
    ["__proto__"], ends with one: an assignment to that name creates it only
    after an earlier one has installed a prototype that answers for the
    name. *)
Fixpoint creates_proto_key (answered : bool) (incoming : list Session) : bool :=
  match incoming with
  | [] => false
  | session :: rest =>
      if String.eqb (session_key session) "__proto__"
      then answered
           || creates_proto_key (answers_proto (Some (stored_record session ""))) rest
      else creates_proto_key answered rest
  end.

(** What [loadExistingData] returns on a given tree. *)
Definition loaded (parse_data : string → option Stored) (t : tree)
    (machineId : string) : Stored :=
  if truthy (Str machineId) then
    match lookup_entry t DATA_DIR (getDataFile machineId) with
    | Some (File content) => default (Complete empty_data) (parse_data content)
    | _ => Complete empty_data
    end
  else Complete empty_data.

(** What [providedMachineId || getMachineId()] evaluates to. *)
Definition known_machineId (parse_identity : string → option field) (t : tree)
    (providedMachineId : field) : field :=
  if truthy providedMachineId then providedMachineId
  else match lookup_entry t IDENTITY_DIR IDENTITY_FILE with
       | Some (File content) => default Null (parse_identity content)
       | _ => Null
       end.

End SyncSpec.

(** * The rest of src/sync.js, and its caller in the server *)

Module Identity.

(** Host names are taken to be ASCII, one byte per character:
    [toLowerCase] acts on the letters [A-Z], and every byte outside
    [a-z0-9-] becomes a dash. *)
Definition code (c : ascii) : N := N_of_ascii c.

Definition is_upper (c : ascii) : bool := (65 <=? code c)%N && (code c <=? 90)%N.

Definition to_lower (c : ascii) : ascii :=
  if is_upper c then ascii_of_N (code c + 32) else c.

(** The character class [[a-z0-9-]]. *)
Definition allowed (c : ascii) : bool :=
  ((97 <=? code c)%N && (code c <=? 122)%N)
  || ((48 <=? code c)%N && (code c <=? 57)%N)
  || (code c =? 45)%N.

Fixpoint map_chars (f : ascii → ascii) (s : string) : string :=
  match s with
  | EmptyString => EmptyString
  | String c s' => String (f c) (map_chars f s')
  end.

(** [s.toLowerCase()]. *)
Definition toLowerCase (s : string) : string := map_chars to_lower s.

(** [s.replace(/[^a-z0-9-]/g, '-')]. *)
Definition replace_disallowed (s : string) : string :=
  map_chars (λ c, if allowed c then c else "-"%char) s.

Definition starts_with_dash (s : string) : bool :=
  match s with
  | String c _ => Ascii.eqb c "-"
  | EmptyString => false
  end.

(** [s.replace(/-+/g, '-')]: a dash that another dash follows is dropped. *)
Fixpoint collapse_dashes (s : string) : string :=
  match s with
  | EmptyString => EmptyString
  | String c s' =>
      if Ascii.eqb c "-" && starts_with_dash s' then collapse_dashes s'
      else String c (collapse_dashes s')
  end.

(** [getDefaultMachineId], on the host name that [os.hostname()] returns. *)
Definition getDefaultMachineId (hostname : string) : string :=
  collapse_dashes (replace_disallowed (toLowerCase hostname)).

End Identity.

Module Aggregate.

Import CloudSync Sync.

Fixpoint skip (n : nat) (s : string) : string :=
  match n, s with
  | S n', String _ s' => skip n' s'
  | _, _ => s
  end.

(** [s.replace(pattern, '')] for a string [pattern]: the first occurrence
    goes. *)
Fixpoint remove_first (pattern s : string) : string :=
  if String.prefix pattern s then skip (String.length pattern) s
  else match s with
       | EmptyString => EmptyString
       | String c s' => String c (remove_first pattern s')
       end.

(** [file.replace('usage-', '').replace('.json', '')]. *)
Definition machine_of_file (file : string) : string :=
  remove_first ".json" (remove_first "usage-" file).

(** What [loadAllData] returns. *)
Record AllData : Type := mkAllData {
  all_sessions : gmap string object;
  machines : list string
}.

(** [{ ...session, machineId }]. *)
Definition tagged (machineId : string) (session : object) : object :=
  <["machineId" := JStr machineId]> session.

(** The loop variables of [loadAllData]: the object [allSessions], as its
    own properties and its prototype, and the array [machines]. *)
Record Aggregating : Type := mkAggregating {
  g_sessions : gmap string object;
  g_proto : option object;
  g_machines : list string
}.

(** [allSessions[id] = { ...session, machineId }]. *)
Definition add_session (machineId : string)
    (acc : gmap string object * option object) (entry : string * object)
    : gmap string object * option object :=
  let record := tagged machineId entry.2 in
  (assign_own entry.1 record acc.1 acc.2, assign_proto entry.1 record acc.1 acc.2).

(** The inner [for] loop, over the entries of [data.sessions]. *)
Definition add_sessions (machineId : string) (found : gmap string object)
    (acc : gmap string object * option object)
    : gmap string object * option object :=
  foldl (add_session machineId) acc (map_to_list found).

Section WithJSON.

Variable parse_data : string → option Stored.

(** The body of the outer [for] loop: the machine is listed before its file
    is read. Reading [data.sessions] throws when the file holds [null]. *)
Definition load_file (file : string) (acc : Aggregating) : js Aggregating :=
  let machineId := machine_of_file file in
  let listed := g_machines acc ++ [machineId] in
  try_catch
    (content <- readFileSync DATA_DIR file ;;
     match parse_data content with
     | Some data =>
         match stored_sessions data with
         | Some found =>
             let all := add_sessions machineId found (g_sessions acc, g_proto acc) in
             ret (mkAggregating all.1 all.2 listed)
         | None => throw "TypeError"
         end
     | None => throw "SyntaxError"
     end)
    (λ err, console ("Warning: Could not load " +:+ file +:+ ": " +:+ err) ;;
            ret (mkAggregating (g_sessions acc) (g_proto acc) listed)).

Fixpoint load_files (files : list string) (acc : Aggregating) : js Aggregating :=
  match files with
  | [] => ret acc
  | file :: rest =>
      acc' <- load_file file acc ;;
      load_files rest acc'
  end.

(** [loadAllData]. Inside the outer [try] only [readdirSync] can throw, and
    it does so before anything is accumulated. The result holds the own
    properties of [allSessions]: what [JSON.stringify] and [Object.values]
    see of it. *)
Definition loadAllData : js AllData :=
  try_catch
    (present <- existsSync (Dir DATA_DIR) ;;
     if negb present then ret (mkAllData ∅ [])
     else
       entries <- readdirSync DATA_DIR ;;
       let files :=
         filter (λ f, startsWith f "usage-" && endsWith f ".json" = true) entries in
       all <- load_files files (mkAggregating ∅ None []) ;;
       ret (mkAllData (g_sessions all) (g_machines all)))
    (λ err, console ("Warning: Could not read data directory: " +:+ err) ;;
            ret (mkAllData ∅ [])).

End WithJSON.

End Aggregate.

Module Server.

Import CloudSync Sync.

(** [paths.some(p => projectPath && projectPath.startsWith(p))]. *)
Definition some_prefix (projectPath : field) (paths : list string) : bool :=
  existsb (λ p, truthy projectPath && startsWith (to_string projectPath) p) paths.

(** [getProjectGroup(projectPath, groups)]; [groups] lists the entries of the
    object in the order of [Object.entries]. *)
Fixpoint getProjectGroup (projectPath : field) (groups : list (string * list string))
    : option string :=
  match groups with
  | [] => None
  | (groupName, paths) :: rest =>
      if some_prefix projectPath paths then Some groupName
      else getProjectGroup projectPath rest
  end.

End Server.

(** * Further vocabulary of the statements *)
Module MoreSpec.

Import Sync Aggregate.

(** Every character of [s] satisfies [p]. *)
Fixpoint all_chars (p : ascii → bool) (s : string) : bool :=
  match s with
  | EmptyString => true
  | String c s' => p c && all_chars p s'
  end.

(** [pattern] occurs in [s], at some position. *)
Fixpoint occurs (pattern s : string) : bool :=
  String.prefix pattern s
  || match s with
     | EmptyString => false
     | String _ s' => occurs pattern s'
     end.

(** The sessions that the entry [file] of the data directory contributes to
    the aggregate: those of its parsed content, none when the entry cannot be
    read or does not parse. *)
Definition file_sessions (parse_data : string → option Stored)
    (dir : directory) (file : string) : gmap string object :=
  match dir !! file with
  | Some (File content) =>
      match parse_data content with
      | Some data => default ∅ (stored_sessions data)
      | None => ∅
      end
  | _ => ∅
  end.

(** [allSessions], as own properties and prototype, after the usage files
    [listing] of [dir] have been read in turn. *)
Definition aggregated (parse_data : string → option Stored) (dir : directory)
    (listing : list string) (acc : gmap string object * option object)
    : gmap string object * option object :=
  foldl (λ acc file,
           add_sessions (machine_of_file file) (file_sessions parse_data dir file) acc)
    acc listing.

End MoreSpec.

(** * Concrete inputs *)

Module Demo.

Import CloudSync Sync.

(** A stand-in for [JSON.parse] on the files of the examples: a text parses
    when it opens an object. *)
Definition parses (content : string) : bool := String.prefix "{" content.

Definition clock (n : nat) : string := "T" +:+ pretty n.

(** Machine [a] holds its own file; the shared folder holds the file of
    [b], an older copy of the file of [a], and a torn upload. *)
Definition exchange_world : World :=
  mkWorld
    {[ "local" := {[ "usage-a.json" := File "{A2}" ]};
       "cloud" := {[ "usage-a.json" := File "{A1}";
                     "usage-b.json" := File "{B}";
                     "usage-torn.json" := File "not json {{{" ]} ]}
    0 [].

Definition first_exchange : World :=
  mkWorld
    {[ "local" := {[ "usage-a.json" := File "{A}" ]};
       "cloud" := {[ "usage-b.json" := File "{B}" ]} ]}
    0 [].

Definition blank : World := mkWorld ∅ 0 [].

Definition seen : Session :=
  mkSession (Str "-Users-taylor-Dev-app") Absent (Str "/Users/taylor/Dev/app") Absent
    {[ "inputTokens" := JNum 50000 0; "totalCost" := JNum 125 (-2) ]}.

Definition seen_again : Session :=
  mkSession (Str "-Users-taylor-Dev-app") Absent (Str "/Users/taylor/Dev/app") Absent
    {[ "inputTokens" := JNum 61000 0; "totalCost" := JNum 150 (-2) ]}.

Definition unseen : Session :=
  mkSession Absent Absent (Str "/srv/site") (Str "2025-01-09T12:00:00Z")
    {[ "inputTokens" := JNum 10 0 ]}.

(** Two sessions whose ids name properties of [Object.prototype]. *)
Definition ctor : Session :=
  mkSession (Str "constructor") Absent (Str "/srv/constructor") Absent
    {[ "inputTokens" := JNum 7 0 ]}.

Definition dunder : Session :=
  mkSession (Str "__proto__") Absent (Str "/srv/proto") Absent
    {[ "inputTokens" := JNum 9 0 ]}.

Definition on_disk : RecordSet :=
  mkRecordSet {[ "-Users-taylor-Dev-app" := stored_record seen "2025-01-09T12:00:00.000Z" ]}
    [] None.

Definition parse_data (content : string) : option Stored :=
  if String.eqb content "{laptop}" then Some (Complete on_disk) else None.

Definition stringify_data (d : RecordSet) : string := "{saved}".

Definition parse_identity (content : string) : option field :=
  if String.prefix "{" content then Some (Str "laptop") else None.

Definition stringify_identity (machineId : string) : string :=
  "{" +:+ machineId +:+ "}".

(** The data directory of machine [laptop]; a second file of the same content
    is named as the file of the empty identity would be. *)
Definition laptop_world : World :=
  mkWorld
    {[ DATA_DIR := {[ getDataFile "laptop" := File "{laptop}";
                      getDataFile "" := File "{laptop}" ]} ]}
    0 [].

End Demo.

(** * Concrete inputs for the server and the first run *)

Module Fixtures.

Import CloudSync Sync Demo.

(** A serialiser that [Demo.parse_data] inverts on [on_disk]. *)
Definition stringify_back (d : RecordSet) : string := "{laptop}".

(** The data directory as the server finds it: the file of [laptop], a torn
    file of [desk], and a note that is no usage file; the shared folder holds
    the file of [phone]. *)
Definition desk_dir : directory :=
  {[ "usage-laptop.json" := File "{laptop}";
     "usage-desk.json" := File "torn";
     "notes.txt" := File "{laptop}" ]}.

Definition desk_world : World :=
  mkWorld
    {[ DATA_DIR := desk_dir;
       "cloud" := {[ "usage-phone.json" := File "{laptop}" ]} ]}
    0 [].


(** A data directory from before machine identities. *)
Definition legacy_world : World :=
  mkWorld {[ DATA_DIR := {[ OLD_DATA_FILE := File "{laptop}" ]} ]} 0 [].


Definition groups : list (string * list string) :=
  [("Clients", ["/srv/site/acme"]); ("Work", ["/srv"; "/Users/taylor/Dev"])].

End Fixtures.

(** * Properties *)

Import CloudSync ExchangeSpec.

(** ** The small functions on the inputs of the source's comments *)

Section Examples.

Import Sync.

Example decodeProjectPath_of_encoded_path :
  decodeProjectPath (Str "-Users-taylor-Dev-myapp") = Str "/Users/taylor/Dev/myapp".
Proof. reflexivity. Qed.

Example decodeProjectPath_of_other_id :
  decodeProjectPath (Str "session-1") = Null ∧ decodeProjectPath Absent = Null.
Proof. split; reflexivity. Qed.

Example getProjectName_is_last_segment :
  getProjectName (Str "/Users/taylor/Development/myproject") = "myproject"
  ∧ getProjectName (Str "/srv/site/") = "/srv/site/"
  ∧ getProjectName Null = "Unknown".
Proof. repeat split; reflexivity. Qed.

Example session_key_prefers_sessionId :
  session_key (mkSession (Str "s1") (Str "i1") (Str "/p") (Str "t0") ∅) = "s1"
  ∧ session_key (mkSession (Str "") (Str "i1") (Str "/p") (Str "t0") ∅) = "i1"
  ∧ session_key (mkSession Absent Null (Str "/p") (Str "t0") ∅) = "/p-t0"
  ∧ session_key (mkSession Absent Absent Absent Absent ∅) = "undefined-undefined".
Proof. repeat split; reflexivity. Qed.

Example usage_pattern_examples :
  usage_pattern "usage-machine-b.json" = true
  ∧ usage_pattern "usage-.json" = true
  ∧ usage_pattern "config.json" = false
  ∧ usage_pattern "usage-notes.txt" = false.
Proof. repeat split; reflexivity. Qed.

End Examples.

Section TreeFacts.

Implicit Types (t : tree) (d : directory) (e : entry).

Lemma lookup_entry_in t dir d name :
  t !! dir = Some d → lookup_entry t dir name = d !! name.
Proof. unfold lookup_entry. by intros ->. Qed.

Lemma lookup_entry_absent t dir name :
  t !! dir = None → lookup_entry t dir name = None.
Proof. unfold lookup_entry. by intros ->. Qed.

Lemma lookup_entry_insert t dir d dir' name :
  lookup_entry (<[dir := d]> t) dir' name =
    if decide (dir = dir') then d !! name else lookup_entry t dir' name.
Proof.
  unfold lookup_entry. case_decide as Hd.
  - subst. by rewrite lookup_insert_eq.
  - by rewrite lookup_insert_ne.
Qed.

Lemma store_entry_in t dir d name e :
  t !! dir = Some d → store_entry t dir name e = <[dir := <[name := e]> d]> t.
Proof. unfold store_entry. by intros ->. Qed.

Lemma ensure_dir_present t dir : is_Some (ensure_dir dir t !! dir).
Proof.
  unfold ensure_dir. destruct (t !! dir) eqn:E; [by rewrite E|].
  rewrite lookup_insert_eq. eauto.
Qed.

Lemma ensure_dir_other t dir dir' :
  dir ≠ dir' → ensure_dir dir t !! dir' = t !! dir'.
Proof.
  intros. unfold ensure_dir. destruct (t !! dir); [done|]. by rewrite lookup_insert_ne.
Qed.

Lemma ensure_dir_id t dir d : t !! dir = Some d → ensure_dir dir t = t.
Proof. unfold ensure_dir. by intros ->. Qed.

Lemma lookup_entry_ensure_dir t dir dir' name :
  lookup_entry (ensure_dir dir t) dir' name = lookup_entry t dir' name.
Proof.
  unfold ensure_dir. destruct (t !! dir) eqn:E; [done|].
  rewrite lookup_entry_insert. case_decide; [subst|done].
  by rewrite lookup_entry_absent.
Qed.

End TreeFacts.

(** ** How the host operations run *)

Section HostRuns.

Implicit Types (w : World).

(** The idiom [if (!fs.existsSync(dir)) fs.mkdirSync(dir, ...)]. *)
Lemma ensure_dir_run {A} dir (k : js A) w :
  (present <- existsSync (Dir dir) ;; when (negb present) (mkdirSync dir) ;; k) w
  = k (set_files (ensure_dir dir (files w)) w).
Proof.
  unfold bind, existsSync, when, mkdirSync, ensure_dir, ret, set_files.
  destruct w as [t n tr]; simpl.
  destruct (t !! dir) as [d|] eqn:E.
  - rewrite bool_decide_true by eauto. simpl. done.
  - rewrite bool_decide_false by (by intros [? ?]). simpl. by rewrite E.
Qed.

End HostRuns.

Section PullFacts.

Variable JSON_parses : string → bool.
Implicit Types (w : World) (C L : directory).

Lemma pulled_own C own old : pulled JSON_parses C own own old = old.
Proof.
  unfold pulled. destruct (C !! own) as [[c|]|]; try done.
  by rewrite bool_decide_false by naive_solver.
Qed.

Lemma pulled_self C own name : pulled JSON_parses C own name (C !! name) = C !! name.
Proof.
  unfold pulled. destruct (C !! name) as [[c|]|] eqn:E; try done.
  by case_match.
Qed.

Lemma pulled_missing C own name old :
  C !! name = None → pulled JSON_parses C own name old = old.
Proof. unfold pulled. by intros ->. Qed.

Lemma world_eta w : mkWorld (files w) (ticks w) (trace w ++ []) = w.
Proof. destruct w. simpl. by rewrite app_nil_r. Qed.

Lemma same_outcome {A} (a : A) t t' n tr tr' :
  t = t' → tr = tr' → (Ok a, mkWorld t n tr) = (Ok a, mkWorld t' n tr').
Proof. by intros -> ->. Qed.

Lemma partial_alter_skip (f : option entry → option entry) (t : tree) dir name L :
  t !! dir = Some L → f (L !! name) = L !! name →
  <[dir := partial_alter f name L]> t = t.
Proof. intros HL Hf. rewrite partial_alter_id by done. by apply insert_id. Qed.

Lemma partial_alter_store (f : option entry → option entry) name L e :
  f (L !! name) = Some e → partial_alter f name L = <[name := e]> L.
Proof. intros Hf. apply partial_alter_ext. by intros ? <-. Qed.

Lemma pull_file_run localDir cloudDir machineId file w C L :
  files w !! cloudDir = Some C →
  files w !! localDir = Some L →
  ∃ tr,
    pull_file JSON_parses localDir cloudDir machineId file w =
      (Ok tt,
       mkWorld
         (<[localDir := partial_alter (pulled JSON_parses C (usage_file machineId) file) file L]>
            (files w))
         (ticks w) (trace w ++ tr))
    ∧ Forall (λ e, touches (usage_file machineId) e = false) tr.
Proof.
  intros HC HL. unfold pull_file. case_bool_decide as Hown.
  - rewrite Hown. exists []. split; [|done].
    rewrite partial_alter_skip by (done || apply pulled_own).
    unfold ret. by rewrite world_eta.
  - assert (Hev : ∀ dir, touches (usage_file machineId) (EvRead (Join dir file)) = false
                       ∧ touches (usage_file machineId) (EvWrite (Join dir file)) = false).
    { intros dir. simpl. by rewrite bool_decide_false. }
    unfold try_catch, bind, readFileSync, JSON_parse, copyFileSync, bind,
      readFileSync, writeFileSync, console, emit, set_files; simpl.
    rewrite !(lookup_entry_in _ _ _ _ HC).
    destruct (C !! file) as [[c|]|] eqn:EC; simpl.
    + destruct (JSON_parses c) eqn:EP; simpl.
      * rewrite !(lookup_entry_in _ _ _ _ HC), EC; simpl. rewrite HL.
        destruct (L !! file) as [[c'|]|] eqn:EL; simpl.
        all: eexists; split;
          [ apply same_outcome; [|rewrite <- ?app_assoc; reflexivity]
          | repeat constructor; try apply Hev; done ].
        -- rewrite (store_entry_in _ _ _ _ _ HL). f_equal.
           symmetry. apply partial_alter_store. unfold pulled.
           rewrite EC, EL, EP. by rewrite !bool_decide_true.
        -- symmetry. apply partial_alter_skip; [done|]. unfold pulled.
           rewrite EC, EL, EP.
           rewrite (bool_decide_false (Some Blocked ≠ Some Blocked)) by (intros Hne; by apply Hne).
           by rewrite andb_false_r.
        -- rewrite (store_entry_in _ _ _ _ _ HL). f_equal.
           symmetry. apply partial_alter_store. unfold pulled.
           rewrite EC, EL, EP. by rewrite !bool_decide_true.
      * eexists; split;
          [ apply same_outcome; [|rewrite <- ?app_assoc; reflexivity]
          | repeat constructor; try apply Hev; done ].
        symmetry. apply partial_alter_skip; [done|]. unfold pulled.
        rewrite EC, EP. by rewrite andb_false_r.
    + eexists; split;
        [ apply same_outcome; [|rewrite <- ?app_assoc; reflexivity]
        | repeat constructor; try apply Hev; done ].
      symmetry. apply partial_alter_skip; [done|]. unfold pulled. by rewrite EC.
    + eexists; split;
        [ apply same_outcome; [|rewrite <- ?app_assoc; reflexivity]
        | repeat constructor; try apply Hev; done ].
      symmetry. apply partial_alter_skip; [done|]. unfold pulled. by rewrite EC.
Qed.

Lemma for_of_pull_run localDir cloudDir machineId names :
  NoDup names →
  ∀ w C L,
    files w !! cloudDir = Some C →
    files w !! localDir = Some L →
    ∃ L' tr,
      for_of names (pull_file JSON_parses localDir cloudDir machineId) w =
        (Ok tt, mkWorld (<[localDir := L']> (files w)) (ticks w) (trace w ++ tr))
      ∧ (∀ name, L' !! name =
           if decide (name ∈ names)
           then pulled JSON_parses C (usage_file machineId) name (L !! name)
           else L !! name)
      ∧ Forall (λ e, touches (usage_file machineId) e = false) tr.
Proof.
  induction 1 as [|file names Hfresh Hnd IH]; intros w C L HC HL.
  - exists L, []. simpl. unfold ret. rewrite insert_id by done.
    rewrite world_eta. split; [done|]. split; [|done].
    done.
  - destruct (pull_file_run localDir cloudDir machineId file w C L HC HL)
      as (tr1 & Hrun & Htr1).
    set (L1 := partial_alter (pulled JSON_parses C (usage_file machineId) file) file L) in *.
    set (w1 := mkWorld (<[localDir := L1]> (files w)) (ticks w) (trace w ++ tr1)) in *.
    assert (HC1 : files w1 !! cloudDir = Some C).
    { simpl. destruct (decide (localDir = cloudDir)) as [->|Hne].
      - rewrite lookup_insert_eq. f_equal. assert (L = C) as -> by congruence.
        apply partial_alter_id, pulled_self.
      - by rewrite lookup_insert_ne. }
    assert (HL1 : files w1 !! localDir = Some L1) by (simpl; by rewrite lookup_insert_eq).
    destruct (IH w1 C L1 HC1 HL1) as (L' & tr2 & Hloop & HL' & Htr2).
    exists L', (tr1 ++ tr2). split; [|split].
    + simpl. unfold bind. rewrite Hrun, Hloop. simpl.
      by rewrite insert_insert_eq, app_assoc.
    + intros name. rewrite HL'. unfold L1. rewrite lookup_partial_alter.
      destruct (decide (name = file)) as [->|Hne].
      * rewrite (decide_False (P := file ∈ names)) by done.
        rewrite decide_True by done. by rewrite decide_True by (apply elem_of_cons; auto).
      * rewrite (decide_False (P := file = name)) by done.
        destruct (decide (name ∈ names)) as [Hin|Hout].
        -- by rewrite decide_True by (apply elem_of_cons; auto).
        -- rewrite decide_False; [done|]. by intros [?|?]%elem_of_cons.
    + by apply Forall_app.
Qed.

Lemma usage_pattern_filter (C : directory) name :
  name ∈ filter (λ f, startsWith f "usage-" && endsWith f ".json" = true) (map_to_list C).*1
  ↔ usage_pattern name = true ∧ is_Some (C !! name).
Proof.
  rewrite list_elem_of_filter. unfold usage_pattern.
  rewrite list_elem_of_fmap. split.
  - intros [Hp ([n e] & -> & Hin%elem_of_map_to_list)]. eauto.
  - intros [Hp [e He]]. split; [done|]. exists (name, e). split; [done|].
    by apply elem_of_map_to_list.
Qed.

Lemma ensure_dir_keeps (t : tree) dir dir' d :
  t !! dir' = Some d → ensure_dir dir t !! dir' = Some d.
Proof.
  intros Hd. destruct (decide (dir = dir')) as [->|Hne].
  - by rewrite (ensure_dir_id _ _ _ Hd).
  - by rewrite ensure_dir_other.
Qed.

Lemma syncFromCloud_unfold localDir cloudDir machineId w C :
  files w !! cloudDir = Some C →
  syncFromCloud JSON_parses localDir cloudDir machineId w =
    for_of
      (filter (λ f, startsWith f "usage-" && endsWith f ".json" = true) (map_to_list C).*1)
      (pull_file JSON_parses localDir cloudDir machineId)
      (set_files (ensure_dir localDir (files w)) w).
Proof.
  intros HC. unfold syncFromCloud.
  unfold bind at 1. unfold existsSync at 1. rewrite HC.
  rewrite bool_decide_true by eauto. cbn [negb].
  rewrite ensure_dir_run. unfold bind, readdirSync. simpl.
  by rewrite (ensure_dir_keeps _ _ _ _ HC).
Qed.

Lemma syncFromCloud_absent localDir cloudDir machineId w :
  files w !! cloudDir = None →
  syncFromCloud JSON_parses localDir cloudDir machineId w = (Ok tt, w).
Proof.
  intros HC. unfold syncFromCloud, bind, existsSync. rewrite HC.
  by rewrite bool_decide_false by (by intros [? ?]).
Qed.

(** The whole of [syncFromCloud], when the shared directory exists. *)
Lemma syncFromCloud_run localDir cloudDir machineId w C :
  files w !! cloudDir = Some C →
  ∃ L' tr,
    syncFromCloud JSON_parses localDir cloudDir machineId w =
      (Ok tt, mkWorld (<[localDir := L']> (files w)) (ticks w) (trace w ++ tr))
    ∧ (∀ name, L' !! name =
         if usage_pattern name
         then pulled JSON_parses C (usage_file machineId) name
                (lookup_entry (files w) localDir name)
         else lookup_entry (files w) localDir name)
    ∧ Forall (λ e, touches (usage_file machineId) e = false) tr.
Proof.
  intros HC. rewrite (syncFromCloud_unfold _ _ _ _ _ HC).
  set (w0 := set_files (ensure_dir localDir (files w)) w).
  destruct (ensure_dir_present (files w) localDir) as [L HL].
  assert (HC0 : files w0 !! cloudDir = Some C) by (by apply ensure_dir_keeps).
  assert (HLw : ∀ name, L !! name = lookup_entry (files w) localDir name).
  { intros name. rewrite <- (lookup_entry_ensure_dir _ localDir).
    by rewrite (lookup_entry_in _ _ _ _ HL). }
  destruct (for_of_pull_run localDir cloudDir machineId
              (filter (λ f, startsWith f "usage-" && endsWith f ".json" = true)
                 (map_to_list C).*1)
              (NoDup_filter _ _ (NoDup_fst_map_to_list C)) w0 C L HC0 HL)
    as (L' & tr & Hrun & HL' & Htr).
  exists L', tr. split; [|split; [|done]].
  - rewrite Hrun. simpl. f_equal. f_equal.
    unfold ensure_dir. destruct (files w !! localDir); [done|].
    by rewrite insert_insert_eq.
  - intros name. rewrite HL', <- HLw.
    destruct (usage_pattern name) eqn:Hp.
    + case_decide as Hin; [done|]. rewrite pulled_missing; [done|].
      apply eq_None_not_Some. intros Hs. apply Hin, usage_pattern_filter. eauto.
    + case_decide as Hin; [|done].
      apply usage_pattern_filter in Hin as [Hin _]. congruence.
Qed.

End PullFacts.

Section NamingFacts.

Lemma endsWith_refl s : endsWith s s = true.
Proof. destruct s; cbn [endsWith]; by rewrite String.eqb_refl. Qed.

Lemma endsWith_prepend p s suffix :
  endsWith s suffix = true → endsWith (p +:+ s) suffix = true.
Proof.
  intros Hs. induction p as [|a p IH]; [done|].
  change (String a p +:+ s) with (String a (p +:+ s)).
  cbn [endsWith]. by destruct (String.eqb _ _).
Qed.

Lemma startsWith_app p s : startsWith (p +:+ s) p = true.
Proof.
  unfold startsWith. induction p as [|a p IH]; [by destruct s|].
  change (String a p +:+ s) with (String a (p +:+ s)).
  cbn [String.prefix]. by destruct (ascii_dec a a).
Qed.

Lemma usage_file_pattern machineId : usage_pattern (usage_file machineId) = true.
Proof.
  unfold usage_pattern, usage_file. apply andb_true_iff. split.
  - apply startsWith_app.
  - do 2 apply endsWith_prepend. apply endsWith_refl.
Qed.

Lemma length_append (s1 s2 : string) :
  String.length (s1 +:+ s2) = String.length s1 + String.length s2.
Proof.
  induction s1 as [|a s1 IH]; [done|].
  change (String a s1 +:+ s2) with (String a (s1 +:+ s2)). simpl. by rewrite IH.
Qed.

Lemma append_inj_l (s1 s2 suffix : string) :
  s1 +:+ suffix = s2 +:+ suffix → s1 = s2.
Proof.
  revert s2. induction s1 as [|a s1 IH]; intros [|b s2] Heq; [done|..].
  - apply (f_equal String.length) in Heq.
    rewrite !length_append in Heq. simpl in Heq. lia.
  - apply (f_equal String.length) in Heq.
    rewrite !length_append in Heq. simpl in Heq. lia.
  - change (String a (s1 +:+ suffix) = String b (s2 +:+ suffix)) in Heq.
    injection Heq as -> Heq. f_equal. by apply IH.
Qed.

Lemma usage_file_inj a b : usage_file a = usage_file b → a = b.
Proof.
  unfold usage_file. intros Heq. apply (inj (String.app "usage-")) in Heq.
  by apply append_inj_l in Heq.
Qed.

End NamingFacts.

Section PushFacts.

Implicit Types (w : World).

Lemma copyFileSync_ok sdir sname ddir dname content d w :
  lookup_entry (files w) sdir sname = Some (File content) →
  files w !! ddir = Some d →
  d !! dname ≠ Some Blocked →
  copyFileSync sdir sname ddir dname w =
    (Ok tt,
     mkWorld (<[ddir := <[dname := File content]> d]> (files w)) (ticks w)
       (trace w ++ [EvRead (Join sdir sname); EvWrite (Join ddir dname)])).
Proof.
  intros Hs Hd Hfree.
  unfold copyFileSync, bind, readFileSync, writeFileSync, emit, set_files; simpl.
  rewrite Hs; simpl. rewrite Hd.
  rewrite (store_entry_in _ _ _ _ _ Hd), <- app_assoc.
  by destruct (d !! dname) as [[?|]|].
Qed.

Lemma syncToCloud_unfold localDir cloudDir machineId w :
  syncToCloud localDir cloudDir machineId w =
    let w1 := set_files (ensure_dir cloudDir (files w)) w in
    match lookup_entry (files w) localDir (usage_file machineId) with
    | Some _ =>
        copyFileSync localDir (usage_file machineId) cloudDir (usage_file machineId) w1
    | None => (Ok tt, w1)
    end.
Proof.
  unfold syncToCloud. rewrite ensure_dir_run.
  unfold bind, existsSync, when; simpl.
  rewrite lookup_entry_ensure_dir.
  destruct (lookup_entry (files w) localDir (usage_file machineId)) as [e|].
  - by rewrite bool_decide_true by eauto.
  - by rewrite bool_decide_false by (by intros [? ?]).
Qed.

End PushFacts.

(** * Properties of the replica exchange engine *)

Section ExchangeProperties.

Variable JSON_parses : string → bool.

(** C2. Unconditional push overwrite. Whenever the local directory holds a
    regular file for [machineId], [syncToCloud] succeeds and leaves exactly
    that content under the same name in the shared directory, whatever the
    shared directory held there before (no content, so no [lastSync], is ever
    compared); the local file and every other shared entry are as before. When
    the local directory holds no entry for [machineId], [syncToCloud] succeeds
    and every entry of the shared directory is as before. *)
Theorem push_overwrites_unconditionally (localDir cloudDir machineId : string) (w : World) :
  let file := usage_file machineId in
  (∀ content,
     lookup_entry (files w) localDir file = Some (File content) →
     lookup_entry (files w) cloudDir file ≠ Some Blocked →
     ∃ w', syncToCloud localDir cloudDir machineId w = (Ok tt, w')
           ∧ lookup_entry (files w') cloudDir file = Some (File content)
           ∧ lookup_entry (files w') localDir file = Some (File content)
           ∧ ∀ name, name ≠ file →
               lookup_entry (files w') cloudDir name = lookup_entry (files w) cloudDir name)
  ∧ (lookup_entry (files w) localDir file = None →
     ∃ w', syncToCloud localDir cloudDir machineId w = (Ok tt, w')
           ∧ ∀ name,
               lookup_entry (files w') cloudDir name = lookup_entry (files w) cloudDir name).
Proof.
  intros file. rewrite syncToCloud_unfold. fold file. cbv zeta. split.
  - intros content Hlocal Hfree. rewrite Hlocal.
    destruct (ensure_dir_present (files w) cloudDir) as [d Hd].
    assert (Hd' : ∀ name, d !! name = lookup_entry (files w) cloudDir name).
    { intros name. rewrite <- (lookup_entry_ensure_dir _ cloudDir).
      by rewrite (lookup_entry_in _ _ _ _ Hd). }
    erewrite copyFileSync_ok; [| |exact Hd|].
    + eexists. split; [reflexivity|]. simpl. split; [|split].
      * rewrite lookup_entry_insert, decide_True by done. apply lookup_insert_eq.
      * rewrite lookup_entry_insert. case_decide; [apply lookup_insert_eq|].
        by rewrite lookup_entry_ensure_dir.
      * intros name Hname. rewrite lookup_entry_insert, decide_True by done.
        rewrite lookup_insert_ne by done. apply Hd'.
    + simpl. by rewrite lookup_entry_ensure_dir.
    + by rewrite Hd'.
  - intros ->. eexists. split; [reflexivity|]. intros name. simpl.
    apply lookup_entry_ensure_dir.
Qed.

(** C3. Self-exclusion on pull. [syncFromCloud] always succeeds; the local
    entry named for [machineId] is afterwards exactly what it was before,
    whatever the shared directory holds under that name; and no read or write
    of the run addresses an entry of that name, in any directory. *)
Theorem pull_excludes_own_file (localDir cloudDir machineId : string) (w : World) :
  ∃ w' tr,
    syncFromCloud JSON_parses localDir cloudDir machineId w = (Ok tt, w')
    ∧ lookup_entry (files w') localDir (usage_file machineId)
      = lookup_entry (files w) localDir (usage_file machineId)
    ∧ trace w' = (trace w ++ tr)
    ∧ Forall (λ e, touches (usage_file machineId) e = false) tr.
Proof.
  destruct (files w !! cloudDir) as [C|] eqn:HC.
  - destruct (syncFromCloud_run JSON_parses localDir cloudDir machineId w C HC)
      as (L' & tr & Hrun & HL' & Htr).
    eexists _, tr. split; [exact Hrun|]. simpl. split; [|done].
    rewrite lookup_entry_insert, decide_True by done. rewrite HL'.
    rewrite pulled_own. by destruct (usage_pattern _).
  - exists w, []. rewrite syncFromCloud_absent by done.
    by rewrite app_nil_r.
Qed.

(** C6. Corrupt-peer isolation on pull. Let the shared directory hold a
    regular file for a peer [peer] (not the caller) whose content parses, and
    an entry [bad] matching [usage-*.json] whose content does not parse. Then
    [syncFromCloud] succeeds, the local directory afterwards holds the peer's
    content under the peer's file name (provided the local entry of that name
    can be written), and the local entry called [bad] is what it was before:
    none is created. *)
Theorem pull_isolates_corrupt_peer
    (localDir cloudDir machineId peer bad content junk : string) (w : World) :
  peer ≠ machineId →
  lookup_entry (files w) cloudDir (usage_file peer) = Some (File content) →
  JSON_parses content = true →
  lookup_entry (files w) localDir (usage_file peer) ≠ Some Blocked →
  usage_pattern bad = true →
  lookup_entry (files w) cloudDir bad = Some (File junk) →
  JSON_parses junk = false →
  ∃ w',
    syncFromCloud JSON_parses localDir cloudDir machineId w = (Ok tt, w')
    ∧ lookup_entry (files w') localDir (usage_file peer) = Some (File content)
    ∧ lookup_entry (files w') localDir bad = lookup_entry (files w) localDir bad.
Proof.
  intros Hpeer Hcloud Hparses Hfree Hpat Hbad Hjunk.
  destruct (files w !! cloudDir) as [C|] eqn:HC;
    [|by rewrite lookup_entry_absent in Hcloud].
  rewrite (lookup_entry_in _ _ _ _ HC) in Hcloud.
  rewrite (lookup_entry_in _ _ _ _ HC) in Hbad.
  destruct (syncFromCloud_run JSON_parses localDir cloudDir machineId w C HC)
    as (L' & tr & Hrun & HL' & _).
  eexists. split; [exact Hrun|]. simpl.
  rewrite !lookup_entry_insert, !decide_True by done. rewrite !HL'. split.
  - rewrite usage_file_pattern. unfold pulled. rewrite Hcloud, Hparses.
    rewrite bool_decide_true by (by intros ?%usage_file_inj).
    by rewrite bool_decide_true by done.
  - rewrite Hpat. unfold pulled. rewrite Hbad, Hjunk. by rewrite andb_false_r.
Qed.

(** C1. Convergence of one exchange cycle. When the local directory holds
    only the file of machine A and the shared directory only a (parseable)
    file of another machine B, [syncWithCloud] run by A succeeds and leaves
    both directories holding exactly the two files: A's with the content of
    A's local file, B's with the content it had in the shared directory. *)
Theorem exchange_converges (localDir cloudDir A B contentA contentB : string) (w : World) :
  A ≠ B →
  files w !! localDir = Some {[ usage_file A := File contentA ]} →
  files w !! cloudDir = Some {[ usage_file B := File contentB ]} →
  JSON_parses contentB = true →
  ∃ w',
    syncWithCloud JSON_parses localDir cloudDir A w = (Ok tt, w')
    ∧ files w' !! cloudDir
      = Some {[ usage_file A := File contentA; usage_file B := File contentB ]}
    ∧ files w' !! localDir
      = Some {[ usage_file A := File contentA; usage_file B := File contentB ]}.
Proof.
  intros HAB Hlocal Hcloud Hparses.
  assert (Hfiles : usage_file A ≠ usage_file B) by (by intros ?%usage_file_inj).
  assert (Hdirs : localDir ≠ cloudDir).
  { intros ->. rewrite Hlocal in Hcloud. apply (inj Some) in Hcloud.
    apply (f_equal (λ m : directory, m !! usage_file A)) in Hcloud.
    by rewrite lookup_singleton_eq, lookup_singleton_ne in Hcloud. }
  unfold syncWithCloud, bind. rewrite syncToCloud_unfold. cbv zeta.
  rewrite (lookup_entry_in _ _ _ _ Hlocal), lookup_singleton_eq.
  rewrite (ensure_dir_id _ _ _ Hcloud).
  erewrite copyFileSync_ok; [| |exact Hcloud|]; cbn [files set_files].
  2: { by rewrite (lookup_entry_in _ _ _ _ Hlocal), lookup_singleton_eq. }
  2: { by rewrite lookup_singleton_ne. }
  set (C := <[usage_file A := File contentA]> {[usage_file B := File contentB]} : directory).
  set (w1 := mkWorld _ _ _).
  assert (HC : files w1 !! cloudDir = Some C) by apply lookup_insert_eq.
  destruct (syncFromCloud_run JSON_parses localDir cloudDir A w1 C HC)
    as (L' & tr & -> & HL' & _).
  eexists. split; [reflexivity|]. cbn [files].
  rewrite lookup_insert_ne, lookup_insert_eq by done.
  split; [done|]. f_equal. apply map_eq. intros name. rewrite HL'.
  unfold w1; cbn [files]. rewrite lookup_entry_insert, decide_False by done.
  rewrite (lookup_entry_in _ _ _ _ Hlocal).
  destruct (decide (name = usage_file A)) as [->|HnA].
  - rewrite pulled_own, usage_file_pattern, lookup_singleton_eq.
    unfold C. by rewrite lookup_insert_eq.
  - rewrite (lookup_singleton_ne (usage_file A)) by done.
    destruct (decide (name = usage_file B)) as [->|HnB].
    + rewrite usage_file_pattern. unfold pulled, C.
      rewrite lookup_insert_ne, lookup_singleton_eq, Hparses by done.
      by rewrite !bool_decide_true by done.
    + unfold C at 2. rewrite lookup_insert_ne, lookup_singleton_ne by done.
      rewrite pulled_missing; [by destruct (usage_pattern name)|].
      unfold C. by rewrite lookup_insert_ne, lookup_singleton_ne by done.
Qed.

End ExchangeProperties.

(** * The merge cycle *)

Import Sync SyncSpec.

Section PlainObjectFacts.

Implicit Types (own : gmap string object) (proto : option object) (record : object).

Lemma sets_prototype_spec own proto key :
  sets_prototype own proto key = true ↔
  key = "__proto__" ∧ own !! key = None ∧ answers_proto proto = false.
Proof.
  unfold sets_prototype, answers_proto.
  rewrite !andb_true_iff, String.eqb_eq, bool_decide_eq_true.
  destruct proto as [record|].
  - rewrite bool_decide_eq_true, bool_decide_eq_false, <- eq_None_not_Some. tauto.
  - tauto.
Qed.

Lemma sets_prototype_other own proto key :
  key ≠ "__proto__" → sets_prototype own proto key = false.
Proof.
  intros Hkey. apply not_true_is_false. by intros (? & _)%sets_prototype_spec.
Qed.

Lemma sets_prototype_present own proto key :
  is_Some (own !! key) → sets_prototype own proto key = false.
Proof.
  intros [record Hown]. apply not_true_is_false.
  intros (_ & Hnone & _)%sets_prototype_spec. congruence.
Qed.

Lemma assign_own_lookup key record own proto :
  assign_own key record own proto !! key
  = if sets_prototype own proto key then None else Some record.
Proof.
  unfold assign_own. destruct (sets_prototype own proto key) eqn:Hset.
  - by apply sets_prototype_spec in Hset as (_ & ? & _).
  - apply lookup_insert_eq.
Qed.

Lemma assign_own_lookup_ne key record own proto k :
  k ≠ key → assign_own key record own proto !! k = own !! k.
Proof.
  intros Hne. unfold assign_own. destruct (sets_prototype own proto key); [done|].
  by rewrite lookup_insert_ne.
Qed.

Lemma assign_own_dom key record own proto :
  dom (assign_own key record own proto)
  = if sets_prototype own proto key then dom own else {[key]} ∪ dom own.
Proof.
  unfold assign_own. destruct (sets_prototype own proto key); [done|].
  by rewrite dom_insert_L.
Qed.

Lemma inherited_ordinary key : ordinary key = true → inherited None key = false.
Proof. unfold ordinary, inherited. by intros ->%negb_true_iff. Qed.

Lemma ordinary_not_proto key : ordinary key = true → key ≠ "__proto__".
Proof. by intros Hkey ->. Qed.

Lemma stored_record_proto session t :
  stored_record session t !! "__proto__" = stored_record session "" !! "__proto__".
Proof. unfold stored_record. cbv zeta. by rewrite !(lookup_insert_ne _ "syncedAt"). Qed.

End PlainObjectFacts.

Section MergeFacts.

Variable clock : nat → string.
Implicit Types (acc : Merging) (incoming : list Session) (w : World).

Lemma merge_session_run session acc w :
  merge_session clock session acc w =
    (Ok (merged_session (clock (ticks w)) session acc),
     mkWorld (files w) (S (ticks w)) (trace w)).
Proof. done. Qed.

Lemma merge_loop_run incoming : ∀ acc w,
  merge_loop clock incoming acc w =
    (Ok (merged clock (ticks w) incoming acc),
     mkWorld (files w) (ticks w + length incoming) (trace w)).
Proof.
  induction incoming as [|session rest IH]; intros acc w; simpl.
  - unfold ret. destruct w. simpl. by rewrite Nat.add_0_r.
  - unfold bind. rewrite merge_session_run, IH. simpl.
    do 3 f_equal. lia.
Qed.

Lemma merge_run (existing : RecordSet) incoming w :
  let m := merged clock (ticks w) incoming (mkMerging (sessions existing) None 0 0) in
  let n := length incoming in
  merge clock (Complete existing) incoming w =
    (Ok (m,
         mkRecordSet (m_sessions m)
           (syncs existing ++
              [mkSyncEvent (clock (ticks w + n)) (newCount m) (updatedCount m)
                 (size (m_sessions m))])
           (Some (clock (S (ticks w + n))))),
     mkWorld (files w) (S (S (ticks w + n))) (trace w)).
Proof.
  intros m n. unfold merge, bind. cbn [stored_sessions stored_syncs].
  rewrite merge_loop_run. by unfold now, ret.
Qed.

Lemma merge_without_syncs found last incoming w :
  merge clock (WithoutSyncs found last) incoming w =
    (Throw "TypeError", mkWorld (files w) (ticks w + length incoming) (trace w)).
Proof.
  unfold merge, bind. cbn [stored_sessions stored_syncs]. by rewrite merge_loop_run.
Qed.

Lemma merged_app pre post : ∀ t acc,
  merged clock t (pre ++ post) acc =
    merged clock (t + length pre) post (merged clock t pre acc).
Proof.
  induction pre as [|s pre IH]; intros t acc; simpl.
  - by rewrite Nat.add_0_r.
  - rewrite IH. f_equal. lia.
Qed.

Lemma merged_counts incoming : ∀ t acc,
  newCount (merged clock t incoming acc) + updatedCount (merged clock t incoming acc)
  = newCount acc + updatedCount acc + length incoming.
Proof.
  induction incoming as [|s rest IH]; intros t acc; simpl; [lia|].
  rewrite IH. unfold merged_session. simpl. destruct (holds _ _ _); simpl; lia.
Qed.

(** No own property is ever removed. *)
Lemma merged_mono incoming : ∀ t acc,
  dom (m_sessions acc) ⊆ dom (m_sessions (merged clock t incoming acc)).
Proof.
  induction incoming as [|s rest IH]; intros t acc; simpl; [done|].
  etrans; [|apply IH]. simpl. rewrite assign_own_dom.
  destruct (sets_prototype _ _ _); set_solver.
Qed.

Lemma merged_untouched incoming key : ∀ t acc,
  key ∉ keys incoming →
  m_sessions (merged clock t incoming acc) !! key = m_sessions acc !! key.
Proof.
  induction incoming as [|s rest IH]; intros t acc Hkey; simpl; [done|].
  apply not_elem_of_cons in Hkey as [Hne Hrest].
  rewrite IH by done. simpl. by rewrite assign_own_lookup_ne.
Qed.

(** The prototype changes only through the key ["__proto__"]. *)
Lemma merged_proto incoming : ∀ t acc,
  "__proto__" ∉ keys incoming →
  m_proto (merged clock t incoming acc) = m_proto acc.
Proof.
  induction incoming as [|s rest IH]; intros t acc Hkey; simpl; [done|].
  apply not_elem_of_cons in Hkey as [Hne Hrest].
  rewrite IH by done. simpl. unfold assign_proto.
  by rewrite sets_prototype_other.
Qed.

Lemma merged_dom incoming : ∀ t acc,
  "__proto__" ∉ keys incoming →
  dom (m_sessions (merged clock t incoming acc))
  = dom (m_sessions acc) ∪ list_to_set (keys incoming).
Proof.
  induction incoming as [|s rest IH]; intros t acc Hkey; simpl.
  - set_solver.
  - apply not_elem_of_cons in Hkey as [Hne Hrest].
    rewrite IH by done. simpl. rewrite assign_own_dom, sets_prototype_other by done.
    set_solver.
Qed.

(** The record under the key of the last session that has it. *)
Lemma merged_last pre session post t acc :
  session_key session ∉ keys post →
  let before := merged clock t pre acc in
  m_sessions (merged clock t (pre ++ session :: post) acc) !! session_key session
  = if sets_prototype (m_sessions before) (m_proto before) (session_key session)
    then None
    else Some (stored_record session (clock (t + length pre))).
Proof.
  intros Hlast before. rewrite merged_app. simpl.
  rewrite merged_untouched by done. simpl. apply assign_own_lookup.
Qed.

Lemma merged_last_wins pre session post t acc :
  session_key session ≠ "__proto__" →
  session_key session ∉ keys post →
  m_sessions (merged clock t (pre ++ session :: post) acc) !! session_key session
  = Some (stored_record session (clock (t + length pre))).
Proof.
  intros Hkey Hlast. rewrite merged_last by done. cbv zeta.
  by rewrite sets_prototype_other.
Qed.

Lemma merged_last_present pre session post t acc :
  session_key session ∉ keys post →
  is_Some (m_sessions (merged clock t (pre ++ session :: post) acc)
             !! session_key session) →
  m_sessions (merged clock t (pre ++ session :: post) acc) !! session_key session
  = Some (stored_record session (clock (t + length pre))).
Proof.
  intros Hlast. rewrite merged_last by done. cbv zeta.
  destruct (sets_prototype _ _ _); [by intros [? ?]|done].
Qed.

Lemma merged_new incoming : ∀ t acc,
  Forall (λ key, ordinary key = true) (keys incoming) →
  m_proto acc = None →
  newCount (merged clock t incoming acc)
  = newCount acc + size (list_to_set (keys incoming) ∖ dom (m_sessions acc) : gset string).
Proof.
  induction incoming as [|s rest IH]; intros t acc Hkeys Hproto; simpl.
  - rewrite difference_disjoint_L by set_solver. rewrite size_empty. lia.
  - apply Forall_cons in Hkeys as [Hkey Hkeys].
    pose proof (ordinary_not_proto _ Hkey) as Hne.
    rewrite IH; [|done|simpl; unfold assign_proto; by rewrite sets_prototype_other].
    simpl. rewrite assign_own_dom, sets_prototype_other by done.
    unfold holds. rewrite Hproto, inherited_ordinary by done.
    destruct (m_sessions acc !! session_key s) as [old|] eqn:Hold.
    + assert (Hin : session_key s ∈ dom (m_sessions acc)) by (apply elem_of_dom; eauto).
      f_equal. f_equal. set_solver.
    + apply not_elem_of_dom in Hold.
      replace (({[session_key s]} ∪ list_to_set (keys rest)) ∖ dom (m_sessions acc) : gset string)
        with ({[session_key s]} ∪ (list_to_set (keys rest) ∖ ({[session_key s]} ∪ dom (m_sessions acc))) : gset string).
      * rewrite (size_union (C := gset string) {[session_key s]}) by set_solver.
        rewrite size_singleton. lia.
      * apply set_eq. intros k. destruct (decide (k = session_key s)); set_solver.
Qed.

(** Whether the own property ["__proto__"] comes to exist depends on the
    batch alone. *)
Lemma merged_creates incoming : ∀ t acc,
  m_sessions acc !! "__proto__" = None →
  is_Some (m_sessions (merged clock t incoming acc) !! "__proto__")
  ↔ creates_proto_key (answers_proto (m_proto acc)) incoming = true.
Proof.
  induction incoming as [|s rest IH]; intros t acc Hnone; simpl.
  - rewrite Hnone. split; [by intros [? ?]|done].
  - destruct (String.eqb_spec (session_key s) "__proto__") as [Hkey|Hkey].
    + destruct (answers_proto (m_proto acc)) eqn:Hanswers; simpl.
      * split; [done|]. intros _. apply elem_of_dom.
        apply (merged_mono rest (S t)). simpl.
        rewrite assign_own_dom.
        assert (Hset : sets_prototype (m_sessions acc) (m_proto acc) (session_key s) = false).
        { apply not_true_is_false. intros (_ & _ & ?)%sets_prototype_spec. congruence. }
        rewrite Hset, Hkey. set_solver.
      * assert (Hset : sets_prototype (m_sessions acc) (m_proto acc) (session_key s) = true).
        { apply sets_prototype_spec. by rewrite Hkey. }
        rewrite IH.
        -- simpl. unfold assign_proto. rewrite Hset. unfold answers_proto.
           by rewrite stored_record_proto.
        -- simpl. unfold assign_own. by rewrite Hset.
    + rewrite IH.
      * simpl. unfold assign_proto. by rewrite sets_prototype_other.
      * simpl. by rewrite assign_own_lookup_ne.
Qed.

Lemma last_occurrence incoming key :
  key ∈ keys incoming →
  ∃ pre session post,
    incoming = pre ++ session :: post ∧ session_key session = key ∧ key ∉ keys post.
Proof.
  induction incoming as [|s rest IH]; intros Hin; [by apply elem_of_nil in Hin|].
  destruct (decide (key ∈ keys rest)) as [Hrest|Hrest].
  - destruct (IH Hrest) as (pre & session & post & -> & Hkey & Hpost).
    by exists (s :: pre), session, post.
  - apply elem_of_cons in Hin as [->|?]; [|done].
    by exists [], s, rest.
Qed.

(** A key other than ["__proto__"] that occurs in the batch is stored. *)
Lemma merged_inserted incoming key t acc :
  key ∈ keys incoming → key ≠ "__proto__" →
  is_Some (m_sessions (merged clock t incoming acc) !! key).
Proof.
  intros Hin Hkey.
  destruct (last_occurrence incoming key Hin) as (pre & s & post & -> & <- & Hlast).
  rewrite merged_last_wins by done. eauto.
Qed.

End MergeFacts.

(** * Properties of the local record store *)

Section MergeProperties.

Variable clock : nat → string.

Lemma content_stored session t1 t2 :
  content (stored_record session t1) = content (stored_record session t2).
Proof. unfold content, stored_record. by rewrite !delete_insert_eq. Qed.

Lemma syncedAt_stored session t :
  stored_record session t !! "syncedAt" = Some (JStr t).
Proof. unfold stored_record. apply lookup_insert_eq. Qed.

Lemma merged_dom_upper incoming : ∀ t (acc : Merging),
  dom (m_sessions (merged clock t incoming acc))
  ⊆ dom (m_sessions acc) ∪ list_to_set (keys incoming).
Proof.
  induction incoming as [|s rest IH]; intros t acc; simpl; [set_solver|].
  etrans; [apply IH|]. simpl. rewrite assign_own_dom.
  destruct (sets_prototype _ _ _); set_solver.
Qed.

(** X22. New/updated counting for ordinary ids. For an existing record set
    that holds the key of [r] and not the key of [s], where the key of [s]
    names no property of [Object.prototype], merging the batch [[r; s]]
    succeeds, counts one new and one updated record, appends a sync event
    with exactly these counts, and the total it reports is the number of
    keys of the merged set (one more than before). *)
Theorem ordinary_ids_counted_new_and_updated (existing : RecordSet) (r s : Session)
    (w : World) :
  session_key r ∈ dom (sessions existing) →
  session_key s ∉ dom (sessions existing) →
  ordinary (session_key s) = true →
  ∃ m d w' ev,
    merge clock (Complete existing) [r; s] w = (Ok (m, d), w')
    ∧ newCount m = 1 ∧ updatedCount m = 1
    ∧ report d = Some ev
    ∧ newSessions ev = 1 ∧ updatedSessions ev = 1
    ∧ totalSessions ev = size (dom (sessions d))
    ∧ size (dom (sessions d)) = S (size (dom (sessions existing))).
Proof.
  intros HR HS Hord. rewrite merge_run. cbv zeta.
  set (m := merged clock (ticks w) [r; s] (mkMerging (sessions existing) None 0 0)).
  assert (HRS : session_key s ≠ session_key r) by (intros Heq; by rewrite Heq in HS).
  pose proof (ordinary_not_proto _ Hord) as Hnp.
  assert (HsetR : sets_prototype (sessions existing) None (session_key r) = false).
  { apply sets_prototype_present. by apply elem_of_dom. }
  assert (Hm : newCount m = 1 ∧ updatedCount m = 1).
  { unfold m. simpl. unfold merged_session. simpl.
    apply elem_of_dom in HR as [old Hold]. apply not_elem_of_dom in HS.
    unfold holds, assign_proto, assign_own. rewrite HsetR, Hold.
    rewrite lookup_insert_ne, HS by done. by rewrite inherited_ordinary. }
  destruct Hm as [Hnew Hupd].
  eexists m, _, _, _. split; [reflexivity|]. simpl.
  split; [done|]. split; [done|]. split; [apply last_snoc|]. simpl.
  split; [done|]. split; [done|]. split; [by rewrite size_dom|].
  unfold m. simpl. rewrite !assign_own_dom. rewrite HsetR.
  rewrite sets_prototype_other by done.
  replace ({[session_key s]} ∪ ({[session_key r]} ∪ dom (sessions existing)))
    with ({[session_key s]} ∪ dom (sessions existing)) by set_solver.
  rewrite (size_union (C := gset string) {[session_key s]}) by set_solver.
  by rewrite size_singleton.
Qed.

(** X23. What the merge never loses. Merging any batch into any record set
    that has a sync log succeeds; every key of the existing set is a key of
    the merged set; a record whose key is not the key of an incoming session
    is exactly the record it was. When no incoming session has the key
    ["__proto__"], the keys of the merged set are the existing keys together
    with the incoming keys, so their number is the size of that union. *)
Theorem merge_keeps_existing_records (existing : RecordSet) (incoming : list Session)
    (w : World) :
  ∃ m d w',
    merge clock (Complete existing) incoming w = (Ok (m, d), w')
    ∧ dom (sessions existing) ⊆ dom (sessions d)
    ∧ (∀ key, key ∉ keys incoming → sessions d !! key = sessions existing !! key)
    ∧ ("__proto__" ∉ keys incoming →
       dom (sessions d) = dom (sessions existing) ∪ list_to_set (keys incoming)
       ∧ size (sessions d)
         = size (dom (sessions existing) ∪ list_to_set (keys incoming) : gset string)).
Proof.
  rewrite merge_run. cbv zeta. eexists _, _, _. split; [reflexivity|]. simpl.
  split; [|split].
  - apply (merged_mono clock incoming (ticks w) (mkMerging (sessions existing) None 0 0)).
  - intros key Hkey. by rewrite merged_untouched.
  - intros Hproto.
    pose proof (merged_dom clock incoming (ticks w)
                  (mkMerging (sessions existing) None 0 0) Hproto) as Hdom.
    simpl in Hdom. split; [done|]. by rewrite <- size_dom, Hdom.
Qed.

(** X24. Duplicate keys within one batch, for ordinary ids. The counts of a
    merge add up to the length of the batch, whatever keys occur in it. When
    every incoming key names no property of [Object.prototype], the new
    count is the number of distinct incoming keys that the existing set
    lacks. At each position the loop counts against the object as it then
    is: a session whose key is ordinary and neither in the existing set nor
    earlier in the batch is counted as new, provided no earlier session has
    the key ["__proto__"]; a session whose key is in the existing set, or
    earlier in the batch and not ["__proto__"], is counted as updated. The
    record stored under a key other than ["__proto__"] is the one built from
    the last session of the batch with that key. *)
Theorem batch_counts_ordinary_occurrences (existing : RecordSet)
    (incoming : list Session) (w : World) :
  ∃ m d w',
    merge clock (Complete existing) incoming w = (Ok (m, d), w')
    ∧ report d
      = Some (mkSyncEvent (clock (ticks w + length incoming)) (newCount m)
                (updatedCount m) (size (sessions d)))
    ∧ newCount m + updatedCount m = length incoming
    ∧ (Forall (λ key, ordinary key = true) (keys incoming) →
       newCount m
       = size (list_to_set (keys incoming) ∖ dom (sessions existing) : gset string))
    ∧ ∀ pre session post,
        incoming = pre ++ session :: post →
        ∃ before w1 after w2,
          merge_loop clock pre (mkMerging (sessions existing) None 0 0) w = (Ok before, w1)
          ∧ merge_session clock session before w1 = (Ok after, w2)
          ∧ (ordinary (session_key session) = true →
             "__proto__" ∉ keys pre →
             session_key session ∉ dom (sessions existing) →
             session_key session ∉ keys pre →
             newCount after = S (newCount before)
             ∧ updatedCount after = updatedCount before)
          ∧ (session_key session ∈ dom (sessions existing)
             ∨ (session_key session ∈ keys pre ∧ session_key session ≠ "__proto__") →
             newCount after = newCount before
             ∧ updatedCount after = S (updatedCount before))
          ∧ (session_key session ≠ "__proto__" →
             session_key session ∉ keys post →
             sessions d !! session_key session
             = Some (stored_record session (clock (ticks w + length pre)))).
Proof.
  rewrite merge_run. cbv zeta. eexists _, _, _. split; [reflexivity|]. simpl.
  split; [apply last_snoc|]. split.
  { rewrite merged_counts. simpl. lia. }
  split; [intros Hord; by rewrite merged_new|].
  intros pre session post ->.
  eexists _, _, _, _.
  split; [apply merge_loop_run|]. split; [apply merge_session_run|].
  set (start := mkMerging (sessions existing) None 0 0).
  unfold merged_session. simpl. split; [|split].
  - intros Hord Hproto Hold Hpre.
    unfold holds. rewrite (merged_proto clock pre (ticks w) start Hproto). simpl.
    rewrite inherited_ordinary by done.
    assert (Hnone : m_sessions (merged clock (ticks w) pre start) !! session_key session
                    = None).
    { apply not_elem_of_dom. intros Hin.
      apply (merged_dom_upper pre (ticks w) start) in Hin. simpl in Hin. set_solver. }
    by rewrite Hnone.
  - intros Hseen.
    assert (Hsome : is_Some (m_sessions (merged clock (ticks w) pre start)
                               !! session_key session)).
    { destruct Hseen as [Hold|[Hpre Hkey]].
      - apply elem_of_dom. by apply (merged_mono clock pre (ticks w) start).
      - by apply merged_inserted. }
    unfold holds. by destruct Hsome as [old ->].
  - intros Hkey Hlast. by apply merged_last_wins.
Qed.

(** C5. Idempotent merge on content. Merging a batch into the empty record
    set, and then the same batch again into the result (at any later reading
    of the clock), succeeds both times, and the two resulting [sessions] maps
    have the same keys and, key by key, the same record once [syncedAt] is
    left out. The [syncedAt] of every record of the second merge is a reading
    the clock gave during the second merge. *)
Theorem merge_twice_same_content (incoming : list Session) (w1 w2 : World) :
  ∃ m1 d1 w1' m2 d2 w2',
    merge clock (Complete empty_data) incoming w1 = (Ok (m1, d1), w1')
    ∧ merge clock (Complete d1) incoming w2 = (Ok (m2, d2), w2')
    ∧ content <$> sessions d2 = content <$> sessions d1
    ∧ dom (sessions d2) = dom (sessions d1)
    ∧ ∀ key record,
        sessions d2 !! key = Some record →
        ∃ i, i < length incoming
             ∧ record !! "syncedAt" = Some (JStr (clock (ticks w2 + i))).
Proof.
  eexists _, _, _, _, _, _.
  split; [apply merge_run|]. split; [apply merge_run|]. simpl.
  set (m1 := merged clock (ticks w1) incoming (mkMerging ∅ None 0 0)).
  set (m2 := merged clock (ticks w2) incoming (mkMerging (m_sessions m1) None 0 0)).
  (* A key that the batch does not mention is in neither map. *)
  assert (Hout1 : ∀ key, key ∉ keys incoming → m_sessions m1 !! key = None).
  { intros key Hout. unfold m1. by rewrite merged_untouched. }
  assert (Hout2 : ∀ key, key ∉ keys incoming → m_sessions m2 !! key = None).
  { intros key Hout. unfold m2. rewrite merged_untouched by done. by apply Hout1. }
  (* The second merge stores under exactly the keys of the first. *)
  assert (Hsame : ∀ key, is_Some (m_sessions m2 !! key) ↔ is_Some (m_sessions m1 !! key)).
  { intros key. split.
    - intros Hkey2.
      destruct (decide (key ∈ keys incoming)) as [Hin|Hout];
        [|rewrite Hout2 in Hkey2 by done; by destruct Hkey2].
      destruct (decide (key = "__proto__")) as [->|Hne];
        [|by apply merged_inserted].
      destruct (m_sessions m1 !! "__proto__") as [record|] eqn:Hfirst; [eauto|].
      apply (merged_creates clock incoming (ticks w2)
               (mkMerging (m_sessions m1) None 0 0) Hfirst) in Hkey2.
      apply (merged_creates clock incoming (ticks w1) (mkMerging ∅ None 0 0)
               (lookup_empty _)) in Hkey2.
      fold m1 in Hkey2. rewrite Hfirst in Hkey2. by destruct Hkey2.
    - intros Hkey1%elem_of_dom. apply elem_of_dom.
      by apply (merged_mono clock incoming (ticks w2)
                  (mkMerging (m_sessions m1) None 0 0)). }
  (* A stored record is the one of the last session with its key. *)
  assert (Hlast : ∀ key,
    is_Some (m_sessions m2 !! key) →
    ∃ pre s post,
      incoming = pre ++ s :: post
      ∧ m_sessions m1 !! key = Some (stored_record s (clock (ticks w1 + length pre)))
      ∧ m_sessions m2 !! key = Some (stored_record s (clock (ticks w2 + length pre)))).
  { intros key Hkey2. pose proof (proj1 (Hsame key) Hkey2) as Hkey1.
    assert (Hin : key ∈ keys incoming).
    { destruct (decide (key ∈ keys incoming)) as [?|Hout]; [done|].
      rewrite Hout2 in Hkey2 by done. by destruct Hkey2. }
    destruct (last_occurrence incoming key Hin) as (pre & s & post & Hsplit & <- & Hpost).
    exists pre, s, post. split; [done|]. unfold m2, m1 in *.
    rewrite Hsplit in *. split; by apply merged_last_present. }
  split; [|split].
  - apply map_eq. intros key. rewrite !lookup_fmap.
    destruct (m_sessions m2 !! key) as [record|] eqn:Hkey2.
    + destruct (Hlast key) as (pre & s & post & _ & Hfirst & Hsecond);
        [by rewrite Hkey2|].
      rewrite Hkey2 in Hsecond. injection Hsecond as ->. rewrite Hfirst. simpl.
      f_equal. apply content_stored.
    + destruct (m_sessions m1 !! key) as [record|] eqn:Hkey1; [|done].
      assert (Habsurd : is_Some (m_sessions m2 !! key)) by (apply Hsame; eauto).
      rewrite Hkey2 in Habsurd. by destruct Habsurd.
  - apply set_eq. intros key. rewrite !elem_of_dom. apply Hsame.
  - intros key record Hrecord.
    destruct (Hlast key) as (pre & s & post & Hsplit & _ & Hsecond);
      [by rewrite Hrecord|].
    rewrite Hrecord in Hsecond. injection Hsecond as ->.
    exists (length pre). split.
    + rewrite Hsplit, length_app. simpl. lia.
    + apply syncedAt_stored.
Qed.

End MergeProperties.

Section CycleFacts.

Variable clock : nat → string.
Variable parse_data : string → option Stored.
Variable stringify_data : RecordSet → string.
Variable parse_identity : string → option field.
Variable stringify_identity : string → string.
Implicit Types (w : World).

Lemma ran_world {A} (a : A) w tr :
  tr = [] → (Ok a, w) = (Ok a, mkWorld (files w) (ticks w) (trace w ++ tr)).
Proof. intros ->. by rewrite world_eta. Qed.

Lemma loadExistingData_run machineId w :
  ∃ tr,
    loadExistingData parse_data machineId w =
      (Ok (loaded parse_data (files w) machineId),
       mkWorld (files w) (ticks w) (trace w ++ tr)).
Proof.
  unfold loadExistingData, loaded.
  destruct (truthy (Str machineId)).
  - unfold bind, try_catch, existsSync, readFileSync, console, throw, ret, emit; simpl.
    destruct (lookup_entry (files w) DATA_DIR (getDataFile machineId))
      as [[content|]|] eqn:Hentry.
    + rewrite bool_decide_true by eauto. simpl. rewrite Hentry.
      destruct (parse_data content) as [parsed|]; simpl;
        eexists; rewrite <- ?app_assoc; reflexivity.
    + rewrite bool_decide_true by eauto. simpl. rewrite Hentry. simpl.
      eexists; rewrite <- ?app_assoc; reflexivity.
    + rewrite bool_decide_false by (by intros [? ?]). simpl.
      exists []. by apply ran_world.
  - exists []. unfold bind, try_catch, ret. simpl. by apply ran_world.
Qed.


Lemma getMachineId_run w :
  ∃ tr,
    getMachineId parse_identity w =
      (Ok (known_machineId parse_identity (files w) Absent),
       mkWorld (files w) (ticks w) (trace w ++ tr)).
Proof.
  unfold getMachineId, known_machineId.
  unfold bind, try_catch, existsSync, readFileSync, console, throw, ret, emit; simpl.
  destruct (lookup_entry (files w) IDENTITY_DIR IDENTITY_FILE)
    as [[content|]|] eqn:Hentry.
  - rewrite bool_decide_true by eauto. simpl. rewrite Hentry.
    destruct (parse_identity content) as [parsed|]; simpl;
      eexists; rewrite <- ?app_assoc; reflexivity.
  - rewrite bool_decide_true by eauto. simpl. rewrite Hentry. simpl.
    eexists; rewrite <- ?app_assoc; reflexivity.
  - rewrite bool_decide_false by (by intros [? ?]). simpl.
    exists []. by apply ran_world.
Qed.


Lemma known_machineId_falsy t providedMachineId :
  truthy providedMachineId = false →
  known_machineId parse_identity t providedMachineId
  = known_machineId parse_identity t Absent.
Proof. unfold known_machineId. by intros ->. Qed.



End CycleFacts.

Section CycleProperties.

Variable clock : nat → string.
Variable parse_data : string → option Stored.
Variable stringify_data : RecordSet → string.
Variable parse_identity : string → option field.
Variable stringify_identity : string → string.



End CycleProperties.

Section ExchangeExtras.

Variable JSON_parses : string → bool.

Lemma pulled_idempotent (C : directory) own name old :
  pulled JSON_parses C own name (pulled JSON_parses C own name old)
  = pulled JSON_parses C own name old.
Proof.
  unfold pulled. destruct (C !! name) as [[content|]|]; try done.
  destruct (bool_decide (name ≠ own)); simpl; [|done].
  destruct (JSON_parses content); simpl; [|done].
  destruct (decide (old = Some Blocked)) as [->|Hold].
  - by rewrite !(bool_decide_false (Some Blocked ≠ Some Blocked))
      by (intros Hne; by apply Hne).
  - rewrite (bool_decide_true (old ≠ Some Blocked)) by done.
    by rewrite bool_decide_true.
Qed.

(** X2. Missing-directory tolerance. Run against a shared directory that
    does not exist, [syncWithCloud] creates it and still pushes the local file
    of the machine into it. Run against a local directory that does not exist
    (the shared one existing), [syncFromCloud] succeeds and the local directory
    exists afterwards. Run against a shared directory that does not exist,
    [syncFromCloud] does nothing at all. *)
Theorem exchange_tolerates_missing_directories
    (localDir cloudDir machineId : string) (w : World) :
  (∀ content,
     files w !! cloudDir = None →
     lookup_entry (files w) localDir (usage_file machineId) = Some (File content) →
     ∃ w', syncWithCloud JSON_parses localDir cloudDir machineId w = (Ok tt, w')
           ∧ files w' !! cloudDir = Some {[ usage_file machineId := File content ]})
  ∧ (files w !! localDir = None →
     is_Some (files w !! cloudDir) →
     ∃ w', syncFromCloud JSON_parses localDir cloudDir machineId w = (Ok tt, w')
           ∧ is_Some (files w' !! localDir))
  ∧ (files w !! cloudDir = None →
     syncFromCloud JSON_parses localDir cloudDir machineId w = (Ok tt, w)).
Proof.
  split; [|split].
  - intros content Hcloud Hlocal.
    assert (Hdirs : localDir ≠ cloudDir).
    { intros ->. by rewrite lookup_entry_absent in Hlocal. }
    unfold syncWithCloud, bind. rewrite syncToCloud_unfold. cbv zeta. rewrite Hlocal.
    assert (Hmade : ensure_dir cloudDir (files w) !! cloudDir = Some ∅).
    { unfold ensure_dir. rewrite Hcloud. apply lookup_insert_eq. }
    erewrite copyFileSync_ok; [| |exact Hmade|]; cbn [files set_files].
    2: { by rewrite lookup_entry_ensure_dir. }
    2: { by rewrite lookup_empty. }
    set (C := <[usage_file machineId := File content]> ∅ : directory).
    set (w1 := mkWorld _ _ _).
    assert (HC : files w1 !! cloudDir = Some C) by apply lookup_insert_eq.
    destruct (syncFromCloud_run JSON_parses localDir cloudDir machineId w1 C HC)
      as (L' & tr & -> & _ & _).
    eexists. split; [reflexivity|]. cbn [files].
    by rewrite lookup_insert_ne, HC by done.
  - intros Hlocal [C HC].
    destruct (syncFromCloud_run JSON_parses localDir cloudDir machineId w C HC)
      as (L' & tr & -> & _ & _).
    eexists. split; [reflexivity|]. cbn [files]. rewrite lookup_insert_eq. eauto.
  - apply syncFromCloud_absent.
Qed.

(** What a successful push leaves on disk. *)
Lemma syncToCloud_ok localDir cloudDir machineId w wp :
  syncToCloud localDir cloudDir machineId w = (Ok tt, wp) →
  ∃ C,
    files wp !! cloudDir = Some C
    ∧ (∀ name, lookup_entry (files wp) localDir name
               = lookup_entry (files w) localDir name)
    ∧ (is_Some (lookup_entry (files wp) localDir (usage_file machineId)) →
       ∃ content,
         lookup_entry (files wp) localDir (usage_file machineId) = Some (File content)
         ∧ C !! usage_file machineId = Some (File content)).
Proof.
  rewrite syncToCloud_unfold. cbv zeta.
  destruct (ensure_dir_present (files w) cloudDir) as [C0 HC0].
  set (own := usage_file machineId).
  destruct (lookup_entry (files w) localDir own) as [e|] eqn:Hlocal.
  - unfold copyFileSync, bind, readFileSync, writeFileSync, emit, set_files.
    cbn [files ticks trace]. rewrite lookup_entry_ensure_dir, Hlocal.
    destruct e as [content|]; [|done]. cbn [files ticks trace]. rewrite HC0.
    rewrite (store_entry_in _ _ _ _ _ HC0).
    assert (Hrun : ∀ t n tr,
      match C0 !! own with
      | Some Blocked => (Throw "EACCES", mkWorld (ensure_dir cloudDir (files w)) n tr)
      | _ => (Ok tt, mkWorld t n tr)
      end = (Ok tt, wp) → files wp = t).
    { intros t n tr. destruct (C0 !! own) as [[?|]|]; by intros [= <-]. }
    intros Hwp%Hrun. rewrite Hwp.
    exists (<[own := File content]> C0).
    split; [apply lookup_insert_eq|].
    assert (Hsame : ∀ name,
      lookup_entry (<[cloudDir := <[own := File content]> C0]>
                      (ensure_dir cloudDir (files w))) localDir name
      = lookup_entry (files w) localDir name).
    { assert (HC0' : ∀ name, C0 !! name = lookup_entry (files w) cloudDir name).
      { intros name. rewrite <- (lookup_entry_ensure_dir _ cloudDir).
        by rewrite (lookup_entry_in _ _ _ _ HC0). }
      intros name. rewrite lookup_entry_insert. case_decide as Hdir.
      - rewrite <- Hdir in *. destruct (decide (name = own)) as [->|Hne].
        + by rewrite lookup_insert_eq.
        + by rewrite lookup_insert_ne.
      - apply lookup_entry_ensure_dir. }
    split; [done|]. intros _. exists content.
    split; [by rewrite Hsame|apply lookup_insert_eq].
  - intros [= <-]. exists C0. cbn [files set_files]. split; [done|].
    split; [intros name; apply lookup_entry_ensure_dir|].
    rewrite lookup_entry_ensure_dir, Hlocal. by intros [? ?].
Qed.

(** What a successful exchange leaves on disk. *)
Lemma syncWithCloud_shape localDir cloudDir machineId w w1 :
  syncWithCloud JSON_parses localDir cloudDir machineId w = (Ok tt, w1) →
  ∃ C L,
    files w1 !! cloudDir = Some C
    ∧ files w1 !! localDir = Some L
    ∧ (∀ name, usage_pattern name = true →
               pulled JSON_parses C (usage_file machineId) name (L !! name) = L !! name)
    ∧ (is_Some (L !! usage_file machineId) →
       ∃ content, L !! usage_file machineId = Some (File content)
                  ∧ C !! usage_file machineId = Some (File content)).
Proof.
  unfold syncWithCloud, bind.
  destruct (syncToCloud localDir cloudDir machineId w) as [[[]|err] wp] eqn:Hpush; [|done].
  destruct (syncToCloud_ok _ _ _ _ _ Hpush) as (C & HC & _ & Hown).
  destruct (syncFromCloud_run JSON_parses localDir cloudDir machineId wp C HC)
    as (L & tr & -> & HL & _).
  intros [= <-]. cbn [files].
  assert (Halias : localDir = cloudDir → L = C).
  { intros Heq. apply map_eq. intros name. rewrite HL, Heq.
    rewrite (lookup_entry_in _ _ _ _ HC), pulled_self.
    by destruct (usage_pattern name). }
  exists C, L. split; [|split; [apply lookup_insert_eq|split]].
  - destruct (decide (localDir = cloudDir)) as [Heq|Hne].
    + rewrite Heq, lookup_insert_eq. f_equal. by apply Halias.
    + by rewrite lookup_insert_ne.
  - intros name Hpat. rewrite HL, Hpat. apply pulled_idempotent.
  - rewrite HL, pulled_own. intros Hsome.
    assert (Hwp : is_Some (lookup_entry (files wp) localDir (usage_file machineId)))
      by (by destruct (usage_pattern _)).
    destruct (Hown Hwp) as (content & Hcontent & HCown).
    exists content. split; [|done]. rewrite Hcontent. by destruct (usage_pattern _).
Qed.

(** X3. The exchange is idempotent. When [syncWithCloud] has completed,
    running it again at once completes as well and leaves every directory as
    the first run left it. *)
Theorem exchange_is_idempotent (localDir cloudDir machineId : string) (w w1 : World) :
  syncWithCloud JSON_parses localDir cloudDir machineId w = (Ok tt, w1) →
  ∃ w2,
    syncWithCloud JSON_parses localDir cloudDir machineId w1 = (Ok tt, w2)
    ∧ files w2 = files w1.
Proof.
  intros (C & L & HC & HL & Hfixed & Hown)%syncWithCloud_shape.
  unfold syncWithCloud, bind. rewrite syncToCloud_unfold. cbv zeta.
  rewrite (ensure_dir_id _ _ _ HC), (lookup_entry_in _ _ _ _ HL).
  assert (∃ wp,
    match L !! usage_file machineId with
    | Some _ =>
        copyFileSync localDir (usage_file machineId) cloudDir (usage_file machineId)
          (set_files (files w1) w1)
    | None => (Ok tt, set_files (files w1) w1)
    end = (Ok tt, wp) ∧ files wp = files w1) as (wp & -> & Hwp).
  { destruct (L !! usage_file machineId) as [e|] eqn:He; [|by eexists].
    destruct (Hown (ltac:(eauto))) as (content & [= ->] & HCown).
    erewrite copyFileSync_ok; [| |exact HC|]; cbn [files set_files].
    - eexists. split; [reflexivity|]. cbn [files].
      rewrite (insert_id C) by done. by apply insert_id.
    - by rewrite (lookup_entry_in _ _ _ _ HL).
    - by rewrite HCown. }
  rewrite <- Hwp in HC, HL.
  destruct (syncFromCloud_run JSON_parses localDir cloudDir machineId wp C HC)
    as (L' & tr & -> & HL' & _).
  eexists. split; [reflexivity|]. cbn [files]. rewrite <- Hwp.
  apply insert_id. rewrite HL. f_equal. apply map_eq. intros name.
  rewrite HL', (lookup_entry_in _ _ _ _ HL).
  destruct (usage_pattern name) eqn:Hpat; [|done]. symmetry. by apply Hfixed.
Qed.

End ExchangeExtras.

(** * Further properties of the two engines *)

Section CycleExtras.

Variable clock : nat → string.
Variable parse_data : string → option Stored.
Variable stringify_data : RecordSet → string.
Variable parse_identity : string → option field.
Variable stringify_identity : string → string.

Lemma saveData_run d machineId w :
  lookup_entry (files w) DATA_DIR (getDataFile machineId) ≠ Some Blocked →
  ∃ dir,
    ensure_dir DATA_DIR (files w) !! DATA_DIR = Some dir
    ∧ saveData stringify_data d machineId w =
        (Ok tt,
         mkWorld
           (<[DATA_DIR := <[getDataFile machineId := File (stringify_data d)]> dir]>
              (ensure_dir DATA_DIR (files w)))
           (ticks w)
           (trace w ++ [EvWrite (Join DATA_DIR (getDataFile machineId))])).
Proof.
  intros Hfree. destruct (ensure_dir_present (files w) DATA_DIR) as [dir Hdir].
  exists dir. split; [done|].
  unfold saveData. rewrite ensure_dir_run.
  unfold writeFileSync, emit, set_files; simpl. rewrite Hdir.
  rewrite (store_entry_in _ _ _ _ _ Hdir).
  assert (Hentry : dir !! getDataFile machineId ≠ Some Blocked).
  { rewrite <- (lookup_entry_in _ _ _ _ Hdir). by rewrite lookup_entry_ensure_dir. }
  by destruct (dir !! getDataFile machineId) as [[?|]|].
Qed.

(** With the identity known and a batch at hand, [sync] is the merge into
    what is loaded, followed by the save. *)
Lemma sync_known incoming answer providedMachineId w :
  let known := known_machineId parse_identity (files w) providedMachineId in
  let machineId := to_string known in
  truthy known = true →
  ∃ tr,
    sync clock parse_data stringify_data parse_identity stringify_identity
      (Some (mkCcusage (Some incoming))) answer providedMachineId w
    = (result <- merge clock (loaded parse_data (files w) machineId) incoming ;;
       let '(merged, d) := result in
       saveData stringify_data d machineId ;;
       console ("Synced: " +:+ pretty (newCount merged) +:+ " new, "
                +:+ pretty (updatedCount merged) +:+ " updated, "
                +:+ pretty (size (m_sessions merged)) +:+ " total sessions") ;;
       ret (mkSyncResult (Complete d) machineId))
        (mkWorld (files w) (ticks w) (trace w ++ tr)).
Proof.
  intros known machineId Hknown.
  unfold sync. unfold bind at 1.
  assert (∃ tr0,
    (if truthy providedMachineId then ret providedMachineId
     else getMachineId parse_identity) w
    = (Ok known, mkWorld (files w) (ticks w) (trace w ++ tr0))) as [tr0 ->].
  { unfold known. destruct (truthy providedMachineId) eqn:Hp.
    - exists []. unfold known_machineId. rewrite Hp. by apply ran_world.
    - rewrite known_machineId_falsy by done. apply getMachineId_run. }
  rewrite Hknown. unfold bind at 1. unfold ret at 1.
  unfold bind at 1. unfold console at 1.
  fold machineId. set (w1 := emit _ _).
  unfold bind at 1.
  destruct (loadExistingData_run parse_data machineId w1) as [tr1 ->].
  unfold bind at 1. unfold runCcusage, ret at 1. cbn [mbind option_bind cc_sessions].
  exists (tr0 ++ [EvConsole ("Syncing usage data for " +:+ machineId +:+ "...")] ++ tr1).
  unfold w1, emit. cbn [files ticks trace]. by rewrite <- !app_assoc.
Qed.

(** X1. The sync cycle is load, merge, save. With the machine identity
    known, the tool returning a list of sessions and the data file writable:
    when what is loaded is a record set with a sync log, [sync] completes,
    the record set it resolves to is the merge of those sessions into the
    loaded set at the current clock reading, and the data file of the machine
    afterwards holds exactly the serialisation of that record set; when what
    is loaded has no [syncs] array (or is [null]), [sync] throws a TypeError
    and no file is changed. *)
Theorem sync_merges_and_persists (incoming : list Session) (answer : string)
    (providedMachineId : field) (w : World) :
  let known := known_machineId parse_identity (files w) providedMachineId in
  let existing := loaded parse_data (files w) (to_string known) in
  truthy known = true →
  lookup_entry (files w) DATA_DIR (getDataFile (to_string known)) ≠ Some Blocked →
  (∀ base,
     existing = Complete base →
     ∃ r w' m d,
       sync clock parse_data stringify_data parse_identity stringify_identity
         (Some (mkCcusage (Some incoming))) answer providedMachineId w = (Ok r, w')
       ∧ machineId r = to_string known
       ∧ data r = Complete d
       ∧ (merge clock (Complete base) incoming w).1 = Ok (m, d)
       ∧ lookup_entry (files w') DATA_DIR (getDataFile (to_string known))
         = Some (File (stringify_data d)))
  ∧ (stored_syncs existing = None →
     ∃ w',
       sync clock parse_data stringify_data parse_identity stringify_identity
         (Some (mkCcusage (Some incoming))) answer providedMachineId w
       = (Throw "TypeError", w')
       ∧ files w' = files w).
Proof.
  intros known existing Hknown Hfree.
  destruct (sync_known incoming answer providedMachineId w Hknown) as [tr ->].
  fold known existing. clearbody existing.
  set (machineId := to_string known) in *. set (w1 := mkWorld _ _ _).
  split.
  - intros base ->. unfold bind at 1. rewrite merge_run. cbv zeta. cbn [files ticks trace].
    set (m := merged clock _ _ _). set (d := mkRecordSet _ _ _).
    set (w2 := mkWorld _ _ _).
    unfold bind at 1.
    destruct (saveData_run d machineId w2 Hfree) as (dir & Hdir & ->).
    unfold bind, console, ret, emit. cbn [files ticks trace].
    eexists _, _, m, d. split; [reflexivity|]. cbn [Sync.machineId data files].
    split; [done|]. split; [done|]. split.
    + rewrite merge_run. done.
    + rewrite lookup_entry_insert, decide_True by done. apply lookup_insert_eq.
  - intros Hsyncs. unfold bind at 1.
    destruct existing as [base|found last|]; [done| |].
    + rewrite merge_without_syncs. eexists. split; [reflexivity|]. done.
    + eexists. split; [reflexivity|]. done.
Qed.

End CycleExtras.

(** * The default machine identity *)

Section IdentityFacts.

Import Identity MoreSpec.

Lemma replace_disallowed_allowed s : all_chars allowed (replace_disallowed s) = true.
Proof.
  induction s as [|c s IH]; [done|].
  cbn [replace_disallowed map_chars all_chars]. fold (replace_disallowed s).
  rewrite IH, andb_true_r. by destruct (allowed c) eqn:Hc.
Qed.

Lemma collapse_dashes_allowed s :
  all_chars allowed s = true → all_chars allowed (collapse_dashes s) = true.
Proof.
  induction s as [|c s IH]; [done|]. cbn [all_chars collapse_dashes].
  intros [Hc Hs]%andb_true_iff. specialize (IH Hs).
  destruct (Ascii.eqb c "-" && starts_with_dash s); [done|].
  cbn [all_chars]. by rewrite Hc, IH.
Qed.

Lemma starts_with_dash_collapse s :
  starts_with_dash (collapse_dashes s) = starts_with_dash s.
Proof.
  induction s as [|c s IH]; [done|]. cbn [collapse_dashes].
  destruct (Ascii.eqb c "-") eqn:Hc; cbn [andb].
  - destruct (starts_with_dash s) eqn:Hs.
    + rewrite IH. cbn [starts_with_dash]. by rewrite Hc.
    + cbn [starts_with_dash]. done.
  - done.
Qed.

Lemma prefix_empty s : String.prefix "" s = true.
Proof. by destruct s. Qed.

Lemma prefix_cons a p b s :
  String.prefix (String a p) (String b s) = Ascii.eqb a b && String.prefix p s.
Proof.
  cbn [String.prefix]. destruct (ascii_dec a b) as [->|Hne].
  - by rewrite Ascii.eqb_refl.
  - by rewrite (proj2 (Ascii.eqb_neq a b)).
Qed.

Lemma prefix_nil a p : String.prefix (String a p) "" = false.
Proof. done. Qed.

Lemma occurs_double_dash c s :
  occurs "--" (String c s)
  = Ascii.eqb c "-" && starts_with_dash s || occurs "--" s.
Proof.
  cbn [occurs]. f_equal. rewrite prefix_cons, (Ascii.eqb_sym "-" c). f_equal.
  destruct s as [|c' s']; [done|].
  rewrite prefix_cons, prefix_empty, andb_true_r. apply Ascii.eqb_sym.
Qed.

Lemma collapse_dashes_no_run s : occurs "--" (collapse_dashes s) = false.
Proof.
  induction s as [|c s IH]; [done|]. cbn [collapse_dashes].
  destruct (Ascii.eqb c "-" && starts_with_dash s) eqn:Hrun; [done|].
  rewrite occurs_double_dash, IH, starts_with_dash_collapse, Hrun. done.
Qed.

Lemma collapse_dashes_clean s : occurs "--" s = false → collapse_dashes s = s.
Proof.
  induction s as [|c s IH]; [done|]. rewrite occurs_double_dash.
  intros [Hrun Hs]%orb_false_iff. cbn [collapse_dashes]. by rewrite Hrun, IH.
Qed.

Lemma allowed_lower c : allowed c = true → to_lower c = c.
Proof.
  unfold to_lower, is_upper, allowed. intros Hc.
  destruct ((65 <=? code c)%N && (code c <=? 90)%N) eqn:Hup; [|done].
  apply andb_true_iff in Hup as [H1%N.leb_le H2%N.leb_le].
  repeat (apply orb_true_iff in Hc as [Hc|Hc]).
  - apply andb_true_iff in Hc as [H3%N.leb_le _]. lia.
  - apply andb_true_iff in Hc as [H3%N.leb_le H4%N.leb_le]. lia.
  - apply N.eqb_eq in Hc. lia.
Qed.

Lemma clean_name_kept s :
  all_chars allowed s = true →
  replace_disallowed (toLowerCase s) = s.
Proof.
  induction s as [|c s IH]; [done|]. cbn [all_chars].
  intros [Hc Hs]%andb_true_iff.
  unfold replace_disallowed, toLowerCase in *. cbn [map_chars].
  by rewrite (allowed_lower c Hc), Hc, IH.
Qed.

(** X4. The default machine identity is safe inside a file name: whatever
    the host name is, the identity consists of the characters [a-z], [0-9]
    and [-] only, and no dash in it follows another dash. *)
Theorem default_machineId_is_sanitized (hostname : string) :
  all_chars allowed (getDefaultMachineId hostname) = true
  ∧ occurs "--" (getDefaultMachineId hostname) = false.
Proof.
  unfold getDefaultMachineId. split.
  - apply collapse_dashes_allowed, replace_disallowed_allowed.
  - apply collapse_dashes_no_run.
Qed.

(** X5. A host name that is already made of [a-z0-9-] without a run of
    dashes is its own default identity; hence sanitizing is idempotent:
    the default identity of a default identity is that identity. *)
Theorem default_machineId_keeps_clean_names (hostname : string) :
  (all_chars allowed hostname = true → occurs "--" hostname = false →
   getDefaultMachineId hostname = hostname)
  ∧ getDefaultMachineId (getDefaultMachineId hostname) = getDefaultMachineId hostname.
Proof.
  assert (Hkept : ∀ s, all_chars allowed s = true → occurs "--" s = false →
                       getDefaultMachineId s = s).
  { intros s Hs Hrun. unfold getDefaultMachineId.
    rewrite clean_name_kept by done. by apply collapse_dashes_clean. }
  split; [apply Hkept|].
  apply Hkept.
  - apply collapse_dashes_allowed, replace_disallowed_allowed.
  - apply collapse_dashes_no_run.
Qed.

End IdentityFacts.

(** * The aggregate over all machines *)

Section FileNameFacts.

Import CloudSync Sync Identity Aggregate MoreSpec.

Lemma append_cons c s t : String c s +:+ t = String c (s +:+ t).
Proof. done. Qed.

Lemma prefix_json_through s :
  s ≠ "" → String.prefix ".json" (s +:+ ".json") = String.prefix ".json" s.
Proof.
  intros Hs. destruct s as [|c1 s]; [done|]. clear Hs.
  rewrite append_cons, !(prefix_cons "." _ c1).
  destruct (Ascii.eqb "." c1) eqn:H1; [|done]. cbn [andb].
  destruct s as [|c2 s]; [by apply Ascii.eqb_eq in H1 as <-|].
  rewrite append_cons, !(prefix_cons "j" _ c2).
  destruct (Ascii.eqb "j" c2) eqn:H2; [|done]. cbn [andb].
  destruct s as [|c3 s]; [by apply Ascii.eqb_eq in H2 as <-|].
  rewrite append_cons, !(prefix_cons "s" _ c3).
  destruct (Ascii.eqb "s" c3) eqn:H3; [|done]. cbn [andb].
  destruct s as [|c4 s]; [by apply Ascii.eqb_eq in H3 as <-|].
  rewrite append_cons, !(prefix_cons "o" _ c4).
  destruct (Ascii.eqb "o" c4) eqn:H4; [|done]. cbn [andb].
  destruct s as [|c5 s]; [by apply Ascii.eqb_eq in H4 as <-|].
  rewrite append_cons, !(prefix_cons "n" _ c5).
  by rewrite !prefix_empty.
Qed.

Lemma remove_first_suffix id :
  occurs ".json" id = false → remove_first ".json" (id +:+ ".json") = id.
Proof.
  induction id as [|c id IH]; [done|]. cbn [occurs].
  intros [Hhere Hlater]%orb_false_iff.
  rewrite append_cons. cbn [remove_first].
  rewrite <- append_cons, prefix_json_through, Hhere by done.
  by rewrite IH.
Qed.

Lemma remove_first_at_start pattern s :
  remove_first pattern (pattern +:+ s) = s.
Proof.
  assert (Hskip : skip (String.length pattern) (pattern +:+ s) = s).
  { induction pattern as [|c p IH]; [by destruct s|]. by rewrite append_cons. }
  pose proof (startsWith_app pattern s) as Hstart. unfold startsWith in Hstart.
  destruct (pattern +:+ s) as [|c rest]; cbn [remove_first]; by rewrite Hstart.
Qed.

Lemma allowed_no_dot s : all_chars allowed s = true → occurs ".json" s = false.
Proof.
  induction s as [|c s IH]; [done|]. cbn [all_chars occurs].
  intros [Hc Hs]%andb_true_iff. rewrite (IH Hs), orb_false_r, prefix_cons.
  destruct (Ascii.eqb "." c) eqn:Hdot; [|done].
  apply Ascii.eqb_eq in Hdot as <-. done.
Qed.

(** X6. The machine identity survives the file name. [loadAllData] recovers
    from the file name that [getDataFile] builds exactly the identity it was
    built from, provided [.json] does not occur inside the identity; in
    particular for every default identity, whatever the host name. *)
Theorem machine_of_file_recovers_identity (machineId hostname : string) :
  (occurs ".json" machineId = false →
   machine_of_file (getDataFile machineId) = machineId)
  ∧ machine_of_file (getDataFile (getDefaultMachineId hostname))
    = getDefaultMachineId hostname.
Proof.
  assert (Hback : ∀ id, occurs ".json" id = false →
                        machine_of_file (getDataFile id) = id).
  { intros id Hid. unfold machine_of_file, getDataFile.
    rewrite remove_first_at_start. by apply remove_first_suffix. }
  split; [apply Hback|].
  apply Hback, allowed_no_dot. unfold getDefaultMachineId.
  apply collapse_dashes_allowed, replace_disallowed_allowed.
Qed.

End FileNameFacts.

Section AggregateFacts.

Import CloudSync Sync SyncSpec Aggregate MoreSpec.

Variable parse_data : string → option Stored.
Implicit Types (w : World) (dir : directory) (acc : gmap string object * option object).

Lemma sets_prototype_congr (own own' : gmap string object) proto key :
  own !! key = own' !! key →
  sets_prototype own proto key = sets_prototype own' proto key.
Proof. unfold sets_prototype. by intros ->. Qed.

(** One file, for an id other than ["__proto__"]. *)
Lemma add_sessions_lookup machineId (found : gmap string object) acc id :
  id ≠ "__proto__" →
  (add_sessions machineId found acc).1 !! id
  = match found !! id with
    | Some session => Some (tagged machineId session)
    | None => acc.1 !! id
    end.
Proof.
  intros Hid. unfold add_sessions.
  rewrite <- (list_to_map_to_list found) at 2.
  pose proof (NoDup_fst_map_to_list found) as Hnd.
  revert acc. induction (map_to_list found) as [|[k s] l IH]; intros acc; [done|].
  apply NoDup_cons in Hnd as [Hfresh Hnd]. cbn [foldl]. rewrite IH by done.
  cbn [list_to_map foldr]. unfold add_session. cbn [fst snd].
  destruct (decide (k = id)) as [->|Hne].
  - rewrite lookup_insert_eq, (not_elem_of_list_to_map_1 _ id) by done.
    by rewrite assign_own_lookup, sets_prototype_other.
  - rewrite lookup_insert_ne by done.
    destruct (list_to_map l !! id); [done|]. by rewrite assign_own_lookup_ne.
Qed.

(** One file, for the id ["__proto__"]. *)
Lemma add_sessions_proto machineId (found : gmap string object) acc :
  (add_sessions machineId found acc).1 !! "__proto__"
  = match found !! "__proto__" with
    | Some session =>
        if sets_prototype acc.1 acc.2 "__proto__" then None
        else Some (tagged machineId session)
    | None => acc.1 !! "__proto__"
    end
  ∧ (add_sessions machineId found acc).2
    = match found !! "__proto__" with
      | Some session =>
          if sets_prototype acc.1 acc.2 "__proto__"
          then Some (tagged machineId session) else acc.2
      | None => acc.2
      end.
Proof.
  unfold add_sessions.
  rewrite <- (list_to_map_to_list found) at 2 4.
  pose proof (NoDup_fst_map_to_list found) as Hnd.
  revert acc. induction (map_to_list found) as [|[k s] l IH]; intros acc; [done|].
  apply NoDup_cons in Hnd as [Hfresh Hnd]. cbn [foldl].
  destruct (IH Hnd (add_session machineId acc (k, s))) as [-> ->].
  cbn [list_to_map foldr]. unfold add_session. cbn [fst snd].
  destruct (decide (k = "__proto__")) as [->|Hne].
  - rewrite lookup_insert_eq, (not_elem_of_list_to_map_1 _ "__proto__") by done.
    rewrite assign_own_lookup. unfold assign_proto.
    by destruct (sets_prototype _ _ _).
  - rewrite lookup_insert_ne by done.
    rewrite (sets_prototype_congr _ acc.1) by (by apply assign_own_lookup_ne).
    rewrite assign_own_lookup_ne by done.
    unfold assign_proto. rewrite (sets_prototype_other _ _ k) by done.
    done.
Qed.

Lemma load_file_run file (acc : Aggregating) w dir :
  files w !! DATA_DIR = Some dir →
  ∃ tr,
    load_file parse_data file acc w =
      (Ok (let all :=
             add_sessions (machine_of_file file) (file_sessions parse_data dir file)
               (g_sessions acc, g_proto acc) in
           mkAggregating all.1 all.2 (g_machines acc ++ [machine_of_file file])),
       mkWorld (files w) (ticks w) (trace w ++ tr)).
Proof.
  intros Hdir.
  unfold load_file, file_sessions, try_catch, bind, readFileSync, console, throw,
    ret, emit; simpl.
  rewrite (lookup_entry_in _ _ _ _ Hdir).
  destruct (dir !! file) as [[content|]|]; simpl.
  - destruct (parse_data content) as [data|]; simpl.
    + destruct (stored_sessions data) as [found|]; simpl.
      * by eexists.
      * rewrite <- app_assoc. by eexists.
    + rewrite <- app_assoc. by eexists.
  - rewrite <- app_assoc. by eexists.
  - rewrite <- app_assoc. by eexists.
Qed.

Lemma load_files_run listing dir : ∀ (acc : Aggregating) w,
  files w !! DATA_DIR = Some dir →
  ∃ tr,
    load_files parse_data listing acc w =
      (Ok (let all := aggregated parse_data dir listing (g_sessions acc, g_proto acc) in
           mkAggregating all.1 all.2 (g_machines acc ++ (machine_of_file <$> listing))),
       mkWorld (files w) (ticks w) (trace w ++ tr)).
Proof.
  induction listing as [|file rest IH]; intros acc w Hdir.
  - exists []. simpl. unfold ret. rewrite !app_nil_r. by destruct acc, w.
  - cbn [load_files]. unfold bind.
    destruct (load_file_run file acc w dir Hdir) as [tr1 ->].
    cbv zeta.
    set (acc1 := mkAggregating _ _ _).
    destruct (IH acc1 (mkWorld (files w) (ticks w) (trace w ++ tr1)) Hdir) as [tr2 ->].
    exists (tr1 ++ tr2). cbn [files ticks trace]. cbv zeta.
    unfold acc1, aggregated. cbn [g_sessions g_proto g_machines foldl fmap list_fmap].
    rewrite <- !app_assoc. repeat f_equal; by destruct (add_sessions _ _ _).
Qed.

Lemma aggregated_cons dir file rest acc :
  aggregated parse_data dir (file :: rest) acc
  = aggregated parse_data dir rest
      (add_sessions (machine_of_file file) (file_sessions parse_data dir file) acc).
Proof. done. Qed.

Lemma aggregated_app dir pre file post acc :
  aggregated parse_data dir (pre ++ file :: post) acc
  = aggregated parse_data dir post
      (add_sessions (machine_of_file file) (file_sessions parse_data dir file)
         (aggregated parse_data dir pre acc)).
Proof. unfold aggregated. by rewrite foldl_app. Qed.

(** The aggregate, for an id other than ["__proto__"]. *)
Lemma aggregate_lookup dir id : ∀ listing acc,
  id ≠ "__proto__" →
  let result := aggregated parse_data dir listing acc in
  (∀ pre file post s,
     listing = pre ++ file :: post →
     file_sessions parse_data dir file !! id = Some s →
     (∀ g, g ∈ post → file_sessions parse_data dir g !! id = None) →
     result.1 !! id = Some (tagged (machine_of_file file) s))
  ∧ ((∀ file, file ∈ listing → file_sessions parse_data dir file !! id = None) →
     result.1 !! id = acc.1 !! id).
Proof.
  intros listing acc Hid.
  assert (Hnone : ∀ listing acc,
    (∀ file, file ∈ listing → file_sessions parse_data dir file !! id = None) →
    (aggregated parse_data dir listing acc).1 !! id = acc.1 !! id).
  { clear listing acc. induction listing as [|f rest IH]; intros acc Hall; [done|].
    rewrite aggregated_cons.
    rewrite IH by (intros g Hg; apply Hall, elem_of_cons; auto).
    rewrite add_sessions_lookup by done.
    by rewrite Hall by (apply elem_of_cons; auto). }
  intros result. split; [|apply Hnone].
  intros pre file post s -> Hs Hpost. unfold result.
  rewrite aggregated_app.
  rewrite Hnone by done. by rewrite add_sessions_lookup, Hs.
Qed.

(** The aggregate, for the id ["__proto__"] held by a single file: the
    assignment installs the record as prototype and stores nothing. *)
Lemma aggregate_proto_dropped dir pre file post s :
  file_sessions parse_data dir file !! "__proto__" = Some s →
  (∀ g, g ∈ pre ++ post → file_sessions parse_data dir g !! "__proto__" = None) →
  (aggregated parse_data dir (pre ++ file :: post) (∅, None)).1 !! "__proto__" = None.
Proof.
  intros Hs Hothers.
  assert (Hskip : ∀ listing acc,
    (∀ g, g ∈ listing → file_sessions parse_data dir g !! "__proto__" = None) →
    (aggregated parse_data dir listing acc).1 !! "__proto__" = acc.1 !! "__proto__"
    ∧ (aggregated parse_data dir listing acc).2 = acc.2).
  { induction listing as [|f rest IH]; intros acc Hall; [done|].
    rewrite aggregated_cons.
    destruct (IH (add_sessions (machine_of_file f) (file_sessions parse_data dir f) acc))
      as [-> ->]; [intros g Hg; apply Hall, elem_of_cons; auto|].
    destruct (add_sessions_proto (machine_of_file f) (file_sessions parse_data dir f) acc)
      as [-> ->].
    by rewrite Hall by (apply elem_of_cons; auto). }
  rewrite aggregated_app.
  destruct (Hskip pre (∅, None)) as [Hown Hproto];
    [intros g Hg; apply Hothers, elem_of_app; auto|].
  set (before := aggregated parse_data dir pre (∅, None)) in *.
  destruct (Hskip post (add_sessions (machine_of_file file)
                          (file_sessions parse_data dir file) before)) as [-> _];
    [intros g Hg; apply Hothers, elem_of_app; auto|].
  destruct (add_sessions_proto (machine_of_file file)
              (file_sessions parse_data dir file) before) as [-> _].
  rewrite Hs.
  assert (Hset : sets_prototype before.1 before.2 "__proto__" = true).
  { apply sets_prototype_spec. rewrite Hown, Hproto. done. }
  by rewrite Hset.
Qed.

End AggregateFacts.

Section AggregateProperties.

Import CloudSync Sync Aggregate MoreSpec ExchangeSpec.

Variable parse_data : string → option Stored.

Lemma loadAllData_run (w : World) :
  ∃ tr,
    loadAllData parse_data w =
      (Ok match files w !! DATA_DIR with
          | None => mkAllData ∅ []
          | Some dir =>
              let listing :=
                filter (λ f, usage_pattern f = true) (map_to_list dir).*1 in
              mkAllData (aggregated parse_data dir listing (∅, None)).1
                (machine_of_file <$> listing)
          end,
       mkWorld (files w) (ticks w) (trace w ++ tr)).
Proof.
  unfold loadAllData, try_catch, bind, existsSync, readdirSync, ret.
  destruct (files w !! DATA_DIR) as [dir|] eqn:Hdir.
  - rewrite bool_decide_eq_true_2 by eauto. simpl.
    destruct (load_files_run parse_data
                (filter (λ f, usage_pattern f = true) (map_to_list dir).*1)
                dir (mkAggregating ∅ None []) w Hdir) as [tr Hrun].
    unfold usage_pattern in *. rewrite Hdir, Hrun. by exists tr.
  - rewrite bool_decide_eq_false_2 by (intros [? ?]; done). simpl.
    exists []. rewrite app_nil_r. by destruct w.
Qed.

Lemma listing_split (dir : directory) file :
  usage_pattern file = true → is_Some (dir !! file) →
  ∃ earlier later,
    filter (λ f, usage_pattern f = true) (map_to_list dir).*1 = earlier ++ file :: later
    ∧ (file ∉ earlier ++ later)
    ∧ ∀ other, other ∈ earlier ++ later → usage_pattern other = true.
Proof.
  intros Hpat [e He].
  set (listing := filter (λ f, usage_pattern f = true) (map_to_list dir).*1).
  assert (Hin : file ∈ listing).
  { apply list_elem_of_filter. split; [done|].
    apply list_elem_of_fmap. exists (file, e). split; [done|].
    by apply elem_of_map_to_list. }
  assert (Hnd : NoDup listing).
  { apply NoDup_filter, NoDup_fst_map_to_list. }
  apply list_elem_of_split in Hin as (earlier & later & Hsplit).
  exists earlier, later. split; [done|]. split.
  - rewrite Hsplit in Hnd. apply NoDup_app in Hnd as (_ & Hdisj & Hnd).
    apply NoDup_cons in Hnd as [Hfresh _].
    intros [Hin|Hin]%elem_of_app; [|done].
    apply (Hdisj file Hin). apply elem_of_cons. by left.
  - intros other Hother.
    assert (Hlisted : other ∈ listing).
    { rewrite Hsplit. apply elem_of_app in Hother as [?|?].
      - apply elem_of_app. by left.
      - apply elem_of_app. right. apply elem_of_cons. by right. }
    by apply list_elem_of_filter in Hlisted as [? _].
Qed.

Lemma file_sessions_present (dir : directory) file id s :
  file_sessions parse_data dir file !! id = Some s → is_Some (dir !! file).
Proof.
  unfold file_sessions. destruct (dir !! file); [eauto|by rewrite lookup_empty].
Qed.

Lemma aggregate_only_holder (dir : directory) id file s :
  id ≠ "__proto__" →
  usage_pattern file = true →
  file_sessions parse_data dir file !! id = Some s →
  (∀ other, other ≠ file → usage_pattern other = true →
            file_sessions parse_data dir other !! id = None) →
  (aggregated parse_data dir
     (filter (λ f, usage_pattern f = true) (map_to_list dir).*1) (∅, None)).1 !! id
  = Some (tagged (machine_of_file file) s).
Proof.
  intros Hid Hpat Hs Honly.
  destruct (listing_split dir file Hpat (file_sessions_present _ _ _ _ Hs))
    as (earlier & later & Hsplit & Hfresh & Hlisted).
  destruct (aggregate_lookup parse_data dir id
              (filter (λ f, usage_pattern f = true) (map_to_list dir).*1)
              (∅, None) Hid) as [Hlast _].
  cbn zeta in Hlast.
  apply (Hlast earlier file later s Hsplit Hs).
  intros other Hother.
  assert (Hin : other ∈ earlier ++ later) by (apply elem_of_app; by right).
  apply Honly; [|by apply Hlisted]. by intros ->.
Qed.

(** X7. Aggregation for the server never fails and never writes: whatever
    the data directory holds, [loadAllData] returns, leaving every file and
    the clock as they were. Without a data directory the result is empty.
    With one, the machines listed are exactly the names of the entries that
    look like [usage-*.json], each with its first [usage-] and first [.json]
    removed; an entry that cannot be read or parsed is listed all the same,
    since the machine is pushed before its file is opened. *)
Theorem aggregation_lists_every_usage_file (w : World) :
  ∃ d tr,
    loadAllData parse_data w = (Ok d, mkWorld (files w) (ticks w) (trace w ++ tr))
    ∧ match files w !! DATA_DIR with
      | None => d = mkAllData ∅ []
      | Some dir =>
          ∀ machineId,
            machineId ∈ machines d ↔
            ∃ file, is_Some (dir !! file) ∧ usage_pattern file = true
                    ∧ machineId = machine_of_file file
      end.
Proof.
  destruct (loadAllData_run w) as [tr Hrun].
  eexists _, tr. split; [exact Hrun|].
  destruct (files w !! DATA_DIR) as [dir|]; [|done].
  intros machineId. cbn [machines].
  rewrite list_elem_of_fmap. split.
  - intros (file & -> & Hin). apply list_elem_of_filter in Hin as [Hpat Hin].
    apply list_elem_of_fmap in Hin as ([name e] & -> & Hin).
    apply elem_of_map_to_list in Hin. exists name. eauto.
  - intros (file & [e He] & Hpat & ->). exists file. split; [done|].
    apply list_elem_of_filter. split; [done|].
    apply list_elem_of_fmap. exists (file, e). split; [done|].
    by apply elem_of_map_to_list.
Qed.

(** X8. What the aggregate holds under a session id other than
    ["__proto__"]. A session found in exactly one usage file of the data
    directory is returned with that file's machine written into its
    [machineId] field, replacing any the record carried. When several usage
    files hold the id, the one read last wins, with its own record and its
    own machine. An id that no readable usage file holds is absent from the
    aggregate. A session stored under the id ["__proto__"] in a single usage
    file is absent from the aggregate as well: the assignment makes it the
    prototype of the aggregate object instead of a property. *)
Theorem aggregation_tags_sessions_last_wins (w : World) (dir : directory) :
  files w !! DATA_DIR = Some dir →
  let listing := filter (λ f, usage_pattern f = true) (map_to_list dir).*1 in
  ∃ d w',
    loadAllData parse_data w = (Ok d, w')
    ∧ (∀ id,
         id ≠ "__proto__" →
         (∀ file s,
            usage_pattern file = true →
            file_sessions parse_data dir file !! id = Some s →
            (∀ other, other ≠ file → usage_pattern other = true →
                      file_sessions parse_data dir other !! id = None) →
            all_sessions d !! id
            = Some (<["machineId" := JStr (machine_of_file file)]> s))
         ∧ (∀ earlier file later s,
              listing = earlier ++ file :: later →
              file_sessions parse_data dir file !! id = Some s →
              (∀ other, other ∈ later →
                        file_sessions parse_data dir other !! id = None) →
              all_sessions d !! id
              = Some (<["machineId" := JStr (machine_of_file file)]> s))
         ∧ ((∀ file, usage_pattern file = true →
                     file_sessions parse_data dir file !! id = None) →
            all_sessions d !! id = None))
    ∧ (∀ file s,
         usage_pattern file = true →
         file_sessions parse_data dir file !! "__proto__" = Some s →
         (∀ other, other ≠ file → usage_pattern other = true →
                   file_sessions parse_data dir other !! "__proto__" = None) →
         all_sessions d !! "__proto__" = None).
Proof.
  intros Hdir listing.
  destruct (loadAllData_run w) as [tr Hrun]. rewrite Hdir in Hrun.
  eexists _, _. split; [exact Hrun|]. cbn [all_sessions]. fold listing. split.
  - intros id Hid.
    destruct (aggregate_lookup parse_data dir id listing (∅, None) Hid) as [Hlast Hnone].
    cbn zeta in Hlast, Hnone.
    split; [|split].
    + intros file s Hpat Hs Honly. by apply aggregate_only_holder.
    + intros earlier file later s Hsplit Hs Hlater.
      by apply (Hlast earlier file later s).
    + intros Hall. rewrite Hnone; [apply lookup_empty|].
      intros file Hin. apply list_elem_of_filter in Hin as [Hpat _]. by apply Hall.
  - intros file s Hpat Hs Honly.
    destruct (listing_split dir file Hpat (file_sessions_present _ _ _ _ Hs))
      as (earlier & later & Hsplit & Hfresh & Hlisted).
    unfold listing. rewrite Hsplit.
    apply (aggregate_proto_dropped parse_data dir earlier file later s Hs).
    intros other Hother. apply Honly; [|by apply Hlisted]. by intros ->.
Qed.

End AggregateProperties.

(** * What the exchange leaves alone *)

Section ExchangeFrame.

Import CloudSync ExchangeSpec.

Variable JSON_parses : string → bool.



End ExchangeFrame.

(** * Persistence of the record set and of the identity *)

Section PersistenceFacts.

Import CloudSync Sync SyncSpec ExchangeSpec.

Variable stringify_identity : string → string.
Implicit Types (w : World).

Lemma getDataFile_not_old machineId : getDataFile machineId ≠ OLD_DATA_FILE.
Proof. unfold getDataFile, OLD_DATA_FILE. cbn. intros [=]. Qed.

Lemma getDataFile_inj a b : getDataFile a = getDataFile b → a = b.
Proof. apply usage_file_inj. Qed.

(** The tree [migrateOldData] leaves. *)
Lemma migrateOldData_tree machineId w :
  ∃ tr,
    migrateOldData machineId w =
      (Ok tt,
       mkWorld
         match files w !! DATA_DIR with
         | Some dir =>
             match dir !! OLD_DATA_FILE, dir !! getDataFile machineId with
             | Some old, None =>
                 <[DATA_DIR := <[getDataFile machineId := old]> (delete OLD_DATA_FILE dir)]>
                   (files w)
             | _, _ => files w
             end
         | None => files w
         end
         (ticks w) (trace w ++ tr)).
Proof.
  unfold migrateOldData, bind, when, existsSync, renameSync, console, ret, emit,
    set_files; simpl.
  destruct (lookup_entry (files w) DATA_DIR OLD_DATA_FILE) as [old|] eqn:Hold.
  - rewrite bool_decide_true by eauto.
    destruct (lookup_entry (files w) DATA_DIR (getDataFile machineId)) as [new|] eqn:Hnew.
    + rewrite bool_decide_true by eauto. simpl. exists [].
      unfold lookup_entry in Hold, Hnew.
      destruct (files w !! DATA_DIR) as [dir|]; [|done].
      cbn [mbind option_bind] in Hold, Hnew. rewrite Hold, Hnew. by apply ran_world.
    + rewrite bool_decide_false by (by intros [? ?]). simpl. rewrite Hold. simpl.
      unfold lookup_entry in Hold, Hnew.
      destruct (files w !! DATA_DIR) as [dir|] eqn:Hdir; [|done].
      cbn [mbind option_bind] in Hold, Hnew. rewrite Hold, Hnew.
      unfold remove_entry, store_entry. rewrite Hdir, lookup_insert_eq.
      rewrite insert_insert_eq.
      eexists. rewrite <- !app_assoc. reflexivity.
  - rewrite bool_decide_false by (by intros [? ?]). exists [].
    unfold lookup_entry in Hold.
    destruct (files w !! DATA_DIR) as [dir|]; [|by apply ran_world].
    cbn [mbind option_bind] in Hold. rewrite Hold. by apply ran_world.
Qed.

(** The tree [saveMachineId] leaves. *)
Lemma saveMachineId_tree machineId w :
  lookup_entry (files w) IDENTITY_DIR IDENTITY_FILE ≠ Some Blocked →
  ∃ dir,
    ensure_dir IDENTITY_DIR (files w) !! IDENTITY_DIR = Some dir
    ∧ saveMachineId stringify_identity machineId w =
        (Ok tt,
         mkWorld
           (<[IDENTITY_DIR := <[IDENTITY_FILE := File (stringify_identity machineId)]> dir]>
              (ensure_dir IDENTITY_DIR (files w)))
           (ticks w)
           (trace w ++ [EvWrite (Join IDENTITY_DIR IDENTITY_FILE)])).
Proof.
  intros Hfree. destruct (ensure_dir_present (files w) IDENTITY_DIR) as [dir Hdir].
  exists dir. split; [done|].
  unfold saveMachineId. rewrite ensure_dir_run.
  unfold writeFileSync, emit, set_files; simpl. rewrite Hdir.
  rewrite (store_entry_in _ _ _ _ _ Hdir).
  assert (Hentry : dir !! IDENTITY_FILE ≠ Some Blocked).
  { rewrite <- (lookup_entry_in _ _ _ _ Hdir). by rewrite lookup_entry_ensure_dir. }
  by destruct (dir !! IDENTITY_FILE) as [[?|]|].
Qed.

End PersistenceFacts.

Section PersistenceProperties.

Import CloudSync Sync SyncSpec ExchangeSpec.

Variable parse_data : string → option Stored.
Variable stringify_data : RecordSet → string.
Variable parse_identity : string → option field.
Variable stringify_identity : string → string.

(** X11. Migration never overwrites. When [usage.json] is missing, or the
    machine already has a usage file, [migrateOldData] returns without
    changing any file: an existing usage file of the machine is never
    replaced by the old data. When [usage.json] exists and the machine has no
    usage file yet, a migration that returns normally has moved the entry, as
    it is, under the name of the machine's usage file, and [usage.json] is
    gone. Entries under other names and other directories, and the clock,
    are never changed. *)
Theorem migration_moves_without_overwriting (machineId : string) (w : World) :
  let newFile := getDataFile machineId in
  let before := lookup_entry (files w) DATA_DIR in
  let outcome := (migrateOldData machineId w).1 in
  let after := (migrateOldData machineId w).2 in
  ticks after = ticks w
  ∧ (before OLD_DATA_FILE = None ∨ is_Some (before newFile) →
     outcome = Ok tt ∧ files after = files w)
  ∧ (∀ old, before OLD_DATA_FILE = Some old → before newFile = None →
            outcome = Ok tt →
            lookup_entry (files after) DATA_DIR newFile = Some old
            ∧ lookup_entry (files after) DATA_DIR OLD_DATA_FILE = None)
  ∧ (∀ dir name,
       dir ≠ DATA_DIR ∨ (name ≠ newFile ∧ name ≠ OLD_DATA_FILE) →
       lookup_entry (files after) dir name = lookup_entry (files w) dir name).
Proof.
  intros newFile before outcome after. unfold outcome, after.
  destruct (migrateOldData_tree machineId w) as [tr ->].
  cbn [fst snd files ticks]. split; [done|].
  unfold before, lookup_entry. fold newFile.
  destruct (files w !! DATA_DIR) as [dir|] eqn:Hdir; cbn [mbind option_bind].
  - destruct (dir !! OLD_DATA_FILE) as [old|] eqn:Hold;
      destruct (dir !! newFile) as [new|] eqn:Hnew.
    + split; [done|]. split; [done|]. done.
    + split; [|split].
      * intros [?|[? ?]]; done.
      * intros ? [= <-] _ _. rewrite lookup_insert_eq. cbn [mbind option_bind].
        rewrite lookup_insert_eq. split; [done|].
        rewrite lookup_insert_ne by apply getDataFile_not_old.
        apply lookup_delete_eq.
      * intros d name Hother.
        destruct (decide (d = DATA_DIR)) as [->|Hne].
        -- destruct Hother as [?|[Hn1 Hn2]]; [done|].
           rewrite lookup_insert_eq, Hdir. cbn [mbind option_bind].
           rewrite lookup_insert_ne by done. by rewrite lookup_delete_ne.
        -- by rewrite lookup_insert_ne.
    + split; [done|]. split; [done|]. done.
    + split; [done|]. split; [done|]. done.
  - split; [done|]. split; [done|]. done.
Qed.

(** X12. What [saveData] writes, [loadExistingData] reads back. When the
    serialisation of a record set parses back to it, the machine identity is
    not empty and the machine's usage file can be written, [saveData]
    completes and a following [loadExistingData] for the same machine returns
    that record set, without changing any file. What is loaded for any other
    machine is not affected by the save. *)
Theorem saved_data_is_loaded_back (d : RecordSet) (machineId : string) (w : World) :
  parse_data (stringify_data d) = Some (Complete d) →
  machineId ≠ "" →
  lookup_entry (files w) DATA_DIR (getDataFile machineId) ≠ Some Blocked →
  ∃ w1 w2,
    saveData stringify_data d machineId w = (Ok tt, w1)
    ∧ loadExistingData parse_data machineId w1 = (Ok (Complete d), w2)
    ∧ files w2 = files w1
    ∧ ∀ other, other ≠ machineId →
        loaded parse_data (files w1) other = loaded parse_data (files w) other.
Proof.
  intros Hround Hid Hfree.
  destruct (saveData_run stringify_data d machineId w Hfree) as (dir & Hdir & ->).
  set (w1 := mkWorld _ _ _).
  destruct (loadExistingData_run parse_data machineId w1) as [tr Hload].
  exists w1, (mkWorld (files w1) (ticks w1) (trace w1 ++ tr)).
  split; [reflexivity|]. rewrite Hload.
  assert (Hother : ∀ name, name ≠ getDataFile machineId →
    lookup_entry (files w1) DATA_DIR name = lookup_entry (files w) DATA_DIR name).
  { intros name Hname. unfold w1. cbn [files].
    rewrite lookup_entry_insert, decide_True by done.
    rewrite lookup_insert_ne by done.
    rewrite <- (lookup_entry_in _ _ _ _ Hdir). apply lookup_entry_ensure_dir. }
  split; [|split; [done|]].
  - f_equal. f_equal. unfold loaded, w1. cbn [files].
    rewrite lookup_entry_insert, decide_True by done.
    rewrite lookup_insert_eq, Hround. cbn.
    by rewrite (proj2 (String.eqb_neq machineId "")).
  - intros other Hne. unfold loaded. rewrite Hother; [done|].
    intros Heq%getDataFile_inj. done.
Qed.

(** X13. What [saveMachineId] writes, [getMachineId] reads back. When the
    serialisation of an identity parses back to it and the identity file can
    be written, [saveMachineId] completes, creating the identity directory
    when it is missing, and a following [getMachineId] returns that identity
    without changing any file. The data directory is not touched. *)
Theorem saved_identity_is_read_back (machineId : string) (w : World) :
  parse_identity (stringify_identity machineId) = Some (Str machineId) →
  lookup_entry (files w) IDENTITY_DIR IDENTITY_FILE ≠ Some Blocked →
  ∃ w1 w2,
    saveMachineId stringify_identity machineId w = (Ok tt, w1)
    ∧ getMachineId parse_identity w1 = (Ok (Str machineId), w2)
    ∧ files w2 = files w1
    ∧ files w1 !! DATA_DIR = files w !! DATA_DIR.
Proof.
  intros Hround Hfree.
  destruct (saveMachineId_tree stringify_identity machineId w Hfree) as (dir & Hdir & ->).
  set (w1 := mkWorld _ _ _).
  destruct (getMachineId_run parse_identity w1) as [tr Hget].
  exists w1, (mkWorld (files w1) (ticks w1) (trace w1 ++ tr)).
  split; [reflexivity|]. rewrite Hget.
  split; [|split; [done|]].
  - f_equal. f_equal. unfold known_machineId, w1. cbn [files truthy].
    rewrite lookup_entry_insert, decide_True by done.
    by rewrite lookup_insert_eq, Hround.
  - unfold w1. cbn [files]. rewrite lookup_insert_ne by done.
    by apply ensure_dir_other.
Qed.

End PersistenceProperties.

(** * Project paths and names *)

Section ProjectFacts.

Import Sync MoreSpec.

Lemma replace_all_dashes_cons c s :
  replace_all_dashes (String c s)
  = String (if Ascii.eqb c "-" then "/"%char else c) (replace_all_dashes s).
Proof.
  destruct (Ascii.eqb_spec c "-") as [->|Hne]; [done|].
  destruct c as [[] [] [] [] [] [] [] []]; try reflexivity. by destruct Hne.
Qed.

Lemma split_slash_cons c s :
  split_slash (String c s)
  = if Ascii.eqb c "/" then EmptyString :: split_slash s
    else match split_slash s with
         | x :: xs => String c x :: xs
         | [] => [String c EmptyString]
         end.
Proof.
  destruct (Ascii.eqb_spec c "/") as [->|Hne]; [done|].
  destruct c as [[] [] [] [] [] [] [] []]; try reflexivity. by destruct Hne.
Qed.

Lemma occurs_char a c s :
  occurs (String a "") (String c s) = Ascii.eqb a c || occurs (String a "") s.
Proof.
  cbn [occurs]. by rewrite prefix_cons, prefix_empty, andb_true_r.
Qed.

Lemma split_slash_nonempty s : split_slash s ≠ [].
Proof.
  induction s as [|c s IH]; [done|]. rewrite split_slash_cons.
  destruct (Ascii.eqb c "/"); [done|]. by destruct (split_slash s).
Qed.

Lemma split_slash_single s : occurs "/" s = false → split_slash s = [s].
Proof.
  induction s as [|c s IH]; [done|]. rewrite occurs_char, split_slash_cons.
  intros [Hc Hs]%orb_false_iff. rewrite Ascii.eqb_sym, Hc. by rewrite IH.
Qed.

Lemma split_slash_app dir name :
  split_slash (dir +:+ "/" +:+ name) = split_slash dir ++ split_slash name.
Proof.
  induction dir as [|c dir IH]; [done|].
  rewrite append_cons, !split_slash_cons, IH.
  destruct (Ascii.eqb c "/"); [done|].
  pose proof (split_slash_nonempty dir). by destruct (split_slash dir).
Qed.

Lemma replace_all_dashes_app s1 s2 :
  replace_all_dashes (s1 +:+ s2) = replace_all_dashes s1 +:+ replace_all_dashes s2.
Proof.
  induction s1 as [|c s1 IH]; [done|].
  by rewrite append_cons, !replace_all_dashes_cons, append_cons, IH.
Qed.


Lemma replace_all_dashes_none s : occurs "-" (replace_all_dashes s) = false.
Proof.
  induction s as [|c s IH]; [done|]. rewrite replace_all_dashes_cons, occurs_char, IH.
  by destruct (Ascii.eqb_spec c "-") as [->|Hne%Ascii.eqb_neq];
    [|rewrite Ascii.eqb_sym, Hne].
Qed.

Lemma replace_all_dashes_length s :
  String.length (replace_all_dashes s) = String.length s.
Proof.
  induction s as [|c s IH]; [done|]. rewrite replace_all_dashes_cons. cbn. by rewrite IH.
Qed.

Lemma replace_leading_dash_redundant s :
  replace_all_dashes (replace_leading_dash s) = replace_all_dashes s.
Proof.
  destruct s as [|c s]; [done|].
  destruct (Ascii.eqb_spec c "-") as [->|Hne]; [done|].
  destruct c as [[] [] [] [] [] [] [] []]; try reflexivity.
Qed.

Lemma decodeProjectPath_dashed s :
  String.prefix "-" s = true →
  decodeProjectPath (Str s) = Str (replace_all_dashes s).
Proof.
  intros Hs. unfold decodeProjectPath. rewrite Hs, replace_leading_dash_redundant.
  destruct s; [done|]. done.
Qed.

Lemma getProjectName_last dir name :
  name ≠ "" → occurs "/" name = false →
  getProjectName (Str (dir +:+ "/" +:+ name)) = name.
Proof.
  intros Hname Hslash. unfold getProjectName.
  assert (Htruthy : truthy (Str (dir +:+ "/" +:+ name)) = true) by (by destruct dir).
  rewrite Htruthy. cbn [negb].
  rewrite split_slash_app, (split_slash_single name Hslash).
  rewrite List.last_last. by rewrite (proj2 (String.eqb_neq name "")).
Qed.


End ProjectFacts.

Section ProjectProperties.

Import Sync MoreSpec.

(** X14. What a decoded session id looks like. [decodeProjectPath] gives a
    path exactly for the ids that start with a dash. The path has the length
    of the id, starts with a slash and holds no dash: every dash of the id
    has become a slash. So a dash inside a directory name is not kept apart
    from a separator: two ids that differ only in a dash against a slash
    decode to the same path. *)
Theorem decoded_path_has_no_dash (sessionId : string) :
  match decodeProjectPath (Str sessionId) with
  | Str p =>
      String.prefix "-" sessionId = true
      ∧ String.prefix "/" p = true
      ∧ String.length p = String.length sessionId
      ∧ occurs "-" p = false
      ∧ ∀ before after,
          before ≠ "" →
          sessionId = before +:+ "-" +:+ after →
          decodeProjectPath (Str (before +:+ "/" +:+ after)) = Str p
  | Null => String.prefix "-" sessionId = false
  | Absent => False
  end.
Proof.
  destruct (String.prefix "-" sessionId) eqn:Hdash.
  - rewrite decodeProjectPath_dashed by done. split; [done|].
    split; [|split; [apply replace_all_dashes_length|
                     split; [apply replace_all_dashes_none|]]].
    + destruct sessionId as [|c s]; [done|].
      rewrite prefix_cons, prefix_empty, andb_true_r in Hdash.
      apply Ascii.eqb_eq in Hdash as <-.
      by rewrite replace_all_dashes_cons, prefix_cons, prefix_empty.
    + intros before after Hbefore ->. destruct before as [|c before]; [done|].
      rewrite decodeProjectPath_dashed.
      * by rewrite !replace_all_dashes_app.
      * rewrite append_cons, prefix_cons, prefix_empty in *. done.
  - unfold decodeProjectPath. rewrite Hdash. by rewrite orb_true_r.
Qed.

(** X15. The project name is the last segment of the path, and it is never
    empty. For a path that ends in a non-empty segment after its last slash,
    [getProjectName] is that segment; for a path without a slash, and for a
    path that ends in a slash, it is the whole path; for a missing or empty
    path it is "Unknown". *)
Theorem project_name_is_last_segment (projectPath : field) :
  getProjectName projectPath ≠ ""
  ∧ (truthy projectPath = false → getProjectName projectPath = "Unknown")
  ∧ (∀ dir name,
       projectPath = Str (dir +:+ "/" +:+ name) →
       occurs "/" name = false →
       getProjectName projectPath = if String.eqb name "" then dir +:+ "/" else name)
  ∧ (∀ p, projectPath = Str p → p ≠ "" → occurs "/" p = false →
          getProjectName projectPath = p).
Proof.
  split; [|split; [|split]].
  - destruct projectPath as [| |p]; [done..|]. unfold getProjectName.
    destruct (truthy (Str p)) eqn:Hp; [|done]. cbn [negb].
    destruct (String.eqb_spec (List.last (split_slash p) "") "") as [_|Hne]; [|done].
    intros ->. done.
  - destruct projectPath as [| |p]; [done..|]. unfold getProjectName. by intros ->.
  - intros dir name -> Hslash.
    destruct (String.eqb_spec name "") as [->|Hname].
    + unfold getProjectName.
      assert (Htruthy : truthy (Str (dir +:+ "/" +:+ "")) = true) by (by destruct dir).
      rewrite Htruthy. cbn [negb]. rewrite split_slash_app.
      change (split_slash "") with [EmptyString]. rewrite List.last_last.
      done.
    + by apply getProjectName_last.
  - intros p -> Hp Hslash. unfold getProjectName.
    assert (Htruthy : truthy (Str p) = true).
    { cbn. by rewrite (proj2 (String.eqb_neq p "")). }
    rewrite Htruthy. cbn [negb]. rewrite (split_slash_single p Hslash). cbn [List.last].
    by rewrite (proj2 (String.eqb_neq p "")).
Qed.


End ProjectProperties.

(** * Project groups of the server *)

Section GroupFacts.

Import Sync Server.

Lemma prefix_app p s suffix :
  String.prefix p s = true → String.prefix p (s +:+ suffix) = true.
Proof.
  revert s. induction p as [|a p IH]; intros s; [by rewrite !prefix_empty|].
  destruct s as [|b s]; [done|]. rewrite append_cons, !prefix_cons.
  intros [-> Hp]%andb_true_iff. by rewrite IH.
Qed.

Lemma some_prefix_spec projectPath paths :
  some_prefix projectPath paths = true ↔
  truthy projectPath = true
  ∧ ∃ p, p ∈ paths ∧ String.prefix p (to_string projectPath) = true.
Proof.
  unfold some_prefix, startsWith. rewrite existsb_exists. split.
  - intros (p & Hin%list_elem_of_In & [Ht Hp]%andb_true_iff). eauto.
  - intros (Ht & p & Hin%list_elem_of_In & Hp). exists p. by rewrite Ht, Hp.
Qed.

Lemma some_prefix_app path suffix paths :
  some_prefix (Str path) paths = true →
  some_prefix (Str (path +:+ suffix)) paths = true.
Proof.
  rewrite !some_prefix_spec. intros (Ht & p & Hin & Hp). split.
  - by destruct path.
  - exists p. split; [done|]. by apply prefix_app.
Qed.

End GroupFacts.

Section GroupProperties.

Import Sync Server.

(** X17. The group of a project is the first group, in the order of the
    configuration, that lists a prefix of the project's path. A missing or
    empty path has no group; a path has no group exactly when no listed
    entry of any group is a prefix of it. *)
Theorem project_group_is_first_match (projectPath : field)
    (groups : list (string * list string)) :
  match getProjectGroup projectPath groups with
  | Some groupName =>
      truthy projectPath = true
      ∧ ∃ earlier paths later p,
          groups = earlier ++ (groupName, paths) :: later
          ∧ p ∈ paths
          ∧ String.prefix p (to_string projectPath) = true
          ∧ ∀ g' paths' p',
              (g', paths') ∈ earlier → p' ∈ paths' →
              String.prefix p' (to_string projectPath) = false
  | None =>
      truthy projectPath = false
      ∨ ∀ g' paths' p',
          (g', paths') ∈ groups → p' ∈ paths' →
          String.prefix p' (to_string projectPath) = false
  end.
Proof.
  induction groups as [|[g0 ps] rest IH]; cbn [getProjectGroup].
  - right. intros g' paths' p' Hin. by apply elem_of_nil in Hin.
  - destruct (some_prefix projectPath ps) eqn:Hps.
    + apply some_prefix_spec in Hps as (Ht & p & Hin & Hp). split; [done|].
      exists [], ps, rest, p. split; [done|]. split; [done|]. split; [done|].
      intros g' paths' p' Hg. by apply elem_of_nil in Hg.
    + assert (Hnone : truthy projectPath = true → ∀ p', p' ∈ ps →
                String.prefix p' (to_string projectPath) = false).
      { intros Ht p' Hin. apply not_true_is_false. intros Hp.
        apply not_true_iff_false in Hps. apply Hps, some_prefix_spec. eauto. }
      destruct (getProjectGroup projectPath rest) as [g|].
      * destruct IH as (Ht & earlier & paths & later & p & -> & Hin & Hp & Hearlier).
        split; [done|]. exists ((g0, ps) :: earlier), paths, later, p.
        split; [done|]. split; [done|]. split; [done|].
        intros g' paths' p' [[= -> ->]|Hg]%elem_of_cons Hp'; [by apply Hnone|].
        by apply (Hearlier g' paths').
      * destruct (truthy projectPath) eqn:Ht; [right|by left].
        destruct IH as [?|IH]; [done|].
        intros g' paths' p' [[= -> ->]|Hg]%elem_of_cons Hp'; [by apply Hnone|].
        by apply (IH g' paths').
Qed.

(** X18. Whatever lies under a grouped path is grouped. When a path has a
    group, every path that extends it has one as well: the same group, or a
    group that the configuration lists before it. *)
Theorem subpath_keeps_a_group (path suffix : string)
    (groups : list (string * list string)) (groupName : string) :
  getProjectGroup (Str path) groups = Some groupName →
  ∃ found earlier paths later,
    getProjectGroup (Str (path +:+ suffix)) groups = Some found
    ∧ groups = earlier ++ (groupName, paths) :: later
    ∧ (found = groupName ∨ found ∈ earlier.*1).
Proof.
  induction groups as [|[g0 ps] rest IH]; cbn [getProjectGroup]; [done|].
  destruct (some_prefix (Str path) ps) eqn:Hps.
  - intros [= ->]. rewrite (some_prefix_app _ suffix _ Hps).
    exists groupName, [], ps, rest. split; [done|]. split; [done|]. by left.
  - intros (found & earlier & paths & later & Hfound & -> & Hwhere)%IH.
    destruct (some_prefix (Str (path +:+ suffix)) ps).
    + exists g0, ((g0, ps) :: earlier), paths, later.
      split; [done|]. split; [done|]. right. cbn. apply elem_of_cons. by left.
    + exists found, ((g0, ps) :: earlier), paths, later.
      split; [done|]. split; [done|].
      destruct Hwhere as [?|?]; [by left|right]. cbn. apply elem_of_cons. by right.
Qed.

End GroupProperties.

(** * The first run *)

Section FirstRunFacts.

Import CloudSync Sync SyncSpec ExchangeSpec.

Implicit Types (w : World).


End FirstRunFacts.

Section FirstRunProperties.

Import CloudSync Sync SyncSpec ExchangeSpec.

Variable clock : nat → string.
Variable parse_data : string → option Stored.
Variable stringify_data : RecordSet → string.
Variable parse_identity : string → option field.
Variable stringify_identity : string → string.


End FirstRunProperties.

(** * From one machine to the aggregate *)

Section RouteProperties.

Import CloudSync Sync SyncSpec Aggregate MoreSpec ExchangeSpec.

Variable parse_data : string → option Stored.
Variable stringify_data : RecordSet → string.

(** X20. What one machine saves, the aggregate shows. When the
    serialisation of a record set parses back to it and the machine's usage
    file can be written, [saveData] followed by [loadAllData] completes; the
    machine read off the usage file's name is among the machines listed; and
    every session of the record set with an id other than ["__proto__"]
    that no other readable usage file of the data directory holds appears in
    the aggregate, carrying that machine in its [machineId] field. *)
Theorem saved_sessions_reach_the_aggregate (d : RecordSet) (machineId : string)
    (w : World) :
  parse_data (stringify_data d) = Some (Complete d) →
  lookup_entry (files w) DATA_DIR (getDataFile machineId) ≠ Some Blocked →
  let machine := machine_of_file (getDataFile machineId) in
  ∃ w1 all w2,
    saveData stringify_data d machineId w = (Ok tt, w1)
    ∧ loadAllData parse_data w1 = (Ok all, w2)
    ∧ files w2 = files w1
    ∧ machine ∈ machines all
    ∧ ∀ id session,
        id ≠ "__proto__" →
        sessions d !! id = Some session →
        (∀ other content parsed found,
           other ≠ getDataFile machineId →
           usage_pattern other = true →
           lookup_entry (files w) DATA_DIR other = Some (File content) →
           parse_data content = Some parsed →
           stored_sessions parsed = Some found →
           found !! id = None) →
        all_sessions all !! id = Some (<["machineId" := JStr machine]> session).
Proof.
  intros Hround Hfree machine.
  destruct (saveData_run stringify_data d machineId w Hfree) as (dir & Hdir & ->).
  set (file := getDataFile machineId) in *.
  set (dir1 := <[file := File (stringify_data d)]> dir).
  set (w1 := mkWorld _ _ _).
  assert (Hdir1 : files w1 !! DATA_DIR = Some dir1) by apply lookup_insert_eq.
  destruct (loadAllData_run parse_data w1) as [tr Hload]. rewrite Hdir1 in Hload.
  cbv zeta in Hload.
  exists w1. eexists _, _. split; [reflexivity|]. split; [exact Hload|].
  cbn [files machines all_sessions]. split; [done|].
  assert (Hpat : usage_pattern file = true) by apply usage_file_pattern.
  assert (Hown : file_sessions parse_data dir1 file = sessions d).
  { unfold file_sessions, dir1. by rewrite lookup_insert_eq, Hround. }
  split.
  - apply list_elem_of_fmap. exists file. split; [done|].
    apply usage_pattern_filter. split; [done|].
    unfold dir1. rewrite lookup_insert_eq. eauto.
  - intros id session Hid Hsession Hothers.
    apply aggregate_only_holder; [done|done|by rewrite Hown|].
    intros other Hother Hlisted. unfold file_sessions, dir1.
    rewrite lookup_insert_ne by done.
    assert (Hbefore : dir !! other = lookup_entry (files w) DATA_DIR other).
    { rewrite <- (lookup_entry_in _ _ _ _ Hdir). apply lookup_entry_ensure_dir. }
    destruct (dir !! other) as [[content|]|] eqn:Hentry; [|done..].
    destruct (parse_data content) as [parsed|] eqn:Hparse; [|done].
    destruct (stored_sessions parsed) as [found|] eqn:Hfound; [|done].
    by apply (Hothers other content parsed found).
Qed.

End RouteProperties.

Section PeerProperties.

Import CloudSync Sync SyncSpec Aggregate MoreSpec ExchangeSpec.

Variable JSON_parses : string → bool.
Variable parse_data : string → option Stored.

(** X21. A pulled peer shows in the aggregate. When the shared directory
    holds the usage file of another machine, its text is valid JSON and the
    local entry of that name can be written, a pull into the data directory
    followed by [loadAllData] completes; the data directory then holds the
    peer's file with the shared text; the peer is among the machines listed;
    and every session of that file with an id other than ["__proto__"]
    which no other readable usage file of the data directory holds appears
    in the aggregate, carrying the peer in its [machineId] field. *)
Theorem pulled_peer_reaches_the_aggregate (cloudDir own peer content : string)
    (C : directory) (w : World) :
  files w !! cloudDir = Some C →
  C !! usage_file peer = Some (File content) →
  peer ≠ own →
  JSON_parses content = true →
  lookup_entry (files w) DATA_DIR (usage_file peer) ≠ Some Blocked →
  let machine := machine_of_file (usage_file peer) in
  ∃ w1 L all w2,
    syncFromCloud JSON_parses DATA_DIR cloudDir own w = (Ok tt, w1)
    ∧ files w1 !! DATA_DIR = Some L
    ∧ L !! usage_file peer = Some (File content)
    ∧ loadAllData parse_data w1 = (Ok all, w2)
    ∧ machine ∈ machines all
    ∧ ∀ parsed found id session,
        id ≠ "__proto__" →
        parse_data content = Some parsed →
        stored_sessions parsed = Some found →
        found !! id = Some session →
        (∀ other, other ≠ usage_file peer → usage_pattern other = true →
                  file_sessions parse_data L other !! id = None) →
        all_sessions all !! id = Some (<["machineId" := JStr machine]> session).
Proof.
  intros HC Hpeer Hne Hvalid Hfree machine.
  destruct (syncFromCloud_run JSON_parses DATA_DIR cloudDir own w C HC)
    as (L & tr & -> & HL & _).
  set (file := usage_file peer) in *.
  set (w1 := mkWorld _ _ _).
  assert (Hpat : usage_pattern file = true) by apply usage_file_pattern.
  assert (HL1 : files w1 !! DATA_DIR = Some L) by apply lookup_insert_eq.
  assert (Hfile : L !! file = Some (File content)).
  { rewrite HL, Hpat. unfold pulled. rewrite Hpeer, Hvalid.
    rewrite bool_decide_true by (by intros Heq%usage_file_inj).
    by rewrite bool_decide_true. }
  destruct (loadAllData_run parse_data w1) as [tr' Hload]. rewrite HL1 in Hload.
  cbv zeta in Hload.
  exists w1, L. eexists _, _. split; [reflexivity|]. split; [done|].
  split; [done|]. split; [exact Hload|]. cbn [machines all_sessions]. split.
  - apply list_elem_of_fmap. exists file. split; [done|].
    apply usage_pattern_filter. split; [done|]. rewrite Hfile. eauto.
  - intros parsed found id session Hid Hparse Hfound Hsession Hothers.
    apply aggregate_only_holder; [done|done| |done].
    unfold file_sessions. by rewrite Hfile, Hparse, Hfound.
Qed.

End PeerProperties.

(** * The theorems at concrete inputs *)

Section Witnesses.

Import Demo.

Ltac by_computation := vm_compute; first [reflexivity | exact I | discriminate].
Ltac decided := apply (bool_decide_unpack _); by_computation.

(** C1 on the first exchange of machine [a] with a folder that holds the file
    of [b]. *)
Lemma exchange_converges_witness :
  "a" ≠ "b"
  ∧ files first_exchange !! "local" = Some {[ usage_file "a" := File "{A}" ]}
  ∧ files first_exchange !! "cloud" = Some {[ usage_file "b" := File "{B}" ]}
  ∧ parses "{B}" = true
  ∧ ∃ w',
      syncWithCloud parses "local" "cloud" "a" first_exchange = (Ok tt, w')
      ∧ files w' !! "cloud"
        = Some {[ usage_file "a" := File "{A}"; usage_file "b" := File "{B}" ]}
      ∧ files w' !! "local"
        = Some {[ usage_file "a" := File "{A}"; usage_file "b" := File "{B}" ]}.
Proof.
  assert (H1 : "a" ≠ "b") by done.
  assert (H2 : files first_exchange !! "local" = Some {[ usage_file "a" := File "{A}" ]})
    by by_computation.
  assert (H3 : files first_exchange !! "cloud" = Some {[ usage_file "b" := File "{B}" ]})
    by by_computation.
  assert (H4 : parses "{B}" = true) by reflexivity.
  do 4 (split; [assumption|]).
  exact (exchange_converges parses "local" "cloud" "a" "b" "{A}" "{B}" first_exchange
           H1 H2 H3 H4).
Defined.

(** C2 where the shared folder holds an older copy of the file of [a]. *)
Lemma push_overwrites_witness :
  lookup_entry (files exchange_world) "local" (usage_file "a") = Some (File "{A2}")
  ∧ lookup_entry (files exchange_world) "cloud" (usage_file "a") = Some (File "{A1}")
  ∧ ∃ w',
      syncToCloud "local" "cloud" "a" exchange_world = (Ok tt, w')
      ∧ lookup_entry (files w') "cloud" (usage_file "a") = Some (File "{A2}")
      ∧ lookup_entry (files w') "cloud" (usage_file "b") = Some (File "{B}").
Proof.
  assert (H1 : lookup_entry (files exchange_world) "local" (usage_file "a")
               = Some (File "{A2}")) by by_computation.
  assert (H2 : lookup_entry (files exchange_world) "cloud" (usage_file "a")
               = Some (File "{A1}")) by by_computation.
  assert (H3 : lookup_entry (files exchange_world) "cloud" (usage_file "a")
               ≠ Some Blocked) by (by rewrite H2).
  destruct (proj1 (push_overwrites_unconditionally "local" "cloud" "a" exchange_world)
              "{A2}" H1 H3) as (w' & Hrun & Hcloud & _ & Hothers).
  split; [done|]. split; [done|]. exists w'. split; [done|]. split; [done|].
  rewrite Hothers by (by intros ?%usage_file_inj). by_computation.
Defined.

(** C6 where the shared folder holds the file of [b] and a torn upload. *)
Lemma pull_isolates_corrupt_peer_witness :
  "b" ≠ "a"
  ∧ lookup_entry (files exchange_world) "cloud" (usage_file "b") = Some (File "{B}")
  ∧ parses "{B}" = true
  ∧ lookup_entry (files exchange_world) "local" (usage_file "b") ≠ Some Blocked
  ∧ usage_pattern "usage-torn.json" = true
  ∧ lookup_entry (files exchange_world) "cloud" "usage-torn.json"
    = Some (File "not json {{{")
  ∧ parses "not json {{{" = false
  ∧ ∃ w',
      syncFromCloud parses "local" "cloud" "a" exchange_world = (Ok tt, w')
      ∧ lookup_entry (files w') "local" (usage_file "b") = Some (File "{B}")
      ∧ lookup_entry (files w') "local" "usage-torn.json"
        = lookup_entry (files exchange_world) "local" "usage-torn.json".
Proof.
  assert (H1 : "b" ≠ "a") by done.
  assert (H2 : lookup_entry (files exchange_world) "cloud" (usage_file "b")
               = Some (File "{B}")) by by_computation.
  assert (H3 : parses "{B}" = true) by reflexivity.
  assert (H4 : lookup_entry (files exchange_world) "local" (usage_file "b")
               ≠ Some Blocked) by (intros H; vm_compute in H; discriminate).
  assert (H5 : usage_pattern "usage-torn.json" = true) by by_computation.
  assert (H6 : lookup_entry (files exchange_world) "cloud" "usage-torn.json"
               = Some (File "not json {{{")) by by_computation.
  assert (H7 : parses "not json {{{" = false) by reflexivity.
  do 7 (split; [assumption|]).
  exact (pull_isolates_corrupt_peer parses "local" "cloud" "a" "b" "usage-torn.json"
           "{B}" "not json {{{" exchange_world H1 H2 H3 H4 H5 H6 H7).
Defined.

(** X22 on a stored session that is observed again and one never seen. *)
Lemma ordinary_ids_counted_new_and_updated_witness :
  session_key seen_again ∈ dom (sessions on_disk)
  ∧ (session_key unseen ∉ dom (sessions on_disk))
  ∧ ordinary (session_key unseen) = true
  ∧ ∃ m d w' ev,
      merge clock (Complete on_disk) [seen_again; unseen] blank = (Ok (m, d), w')
      ∧ newCount m = 1 ∧ updatedCount m = 1
      ∧ report d = Some ev
      ∧ newSessions ev = 1 ∧ updatedSessions ev = 1
      ∧ totalSessions ev = size (dom (sessions d))
      ∧ size (dom (sessions d)) = S (size (dom (sessions on_disk))).
Proof.
  assert (H1 : session_key seen_again ∈ dom (sessions on_disk)) by decided.
  assert (H2 : session_key unseen ∉ dom (sessions on_disk)) by decided.
  assert (H3 : ordinary (session_key unseen) = true) by by_computation.
  split; [done|]. split; [done|]. split; [done|].
  exact (ordinary_ids_counted_new_and_updated clock on_disk seen_again unseen blank
           H1 H2 H3).
Defined.

(** C4 fails on an id that names a property of [Object.prototype]. The set
    on disk holds the key of [seen_again] and not the key ["constructor"] of
    [ctor], and merging [[seen_again; ctor]] reports no new record and two
    updated ones: [sessions["constructor"]] is the inherited function, which
    is truthy, so line 174 takes the session for a known one. The total, 2,
    is the number of keys after the merge. *)
Theorem inherited_id_is_counted_as_updated :
  session_key seen_again ∈ dom (sessions on_disk)
  ∧ (session_key ctor ∉ dom (sessions on_disk))
  ∧ ∃ m d w',
      merge clock (Complete on_disk) [seen_again; ctor] blank = (Ok (m, d), w')
      ∧ newCount m = 0 ∧ updatedCount m = 2
      ∧ report d = Some (mkSyncEvent (clock 2) 0 2 2)
      ∧ size (sessions d) = 2.
Proof.
  split; [decided|]. split; [decided|].
  eexists _, _, _. split; [apply (merge_run clock)|].
  repeat split; by_computation.
Qed.

(** X23: a batch that does not mention the stored session leaves it alone. *)
Lemma merge_keeps_existing_records_witness :
  (session_key seen ∉ keys [unseen])
  ∧ ("__proto__" ∉ keys [unseen])
  ∧ ∃ m d w',
      merge clock (Complete on_disk) [unseen] blank = (Ok (m, d), w')
      ∧ sessions d !! session_key seen = sessions on_disk !! session_key seen
      ∧ size (sessions d) = 2.
Proof.
  assert (H1 : session_key seen ∉ keys [unseen]) by decided.
  assert (H2 : "__proto__" ∉ keys [unseen]) by decided.
  destruct (merge_keeps_existing_records clock on_disk [unseen] blank)
    as (m & d & w' & Hrun & _ & Hkept & Hunion).
  destruct (Hunion H2) as [_ Hsize].
  split; [done|]. split; [done|]. exists m, d, w'. split; [done|].
  split; [by apply Hkept|].
  rewrite Hsize. by_computation.
Defined.

(** C7 fails on the id ["__proto__"]. Merging the session [dunder], whose
    key is ["__proto__"], into the set on disk stores nothing: the
    assignment of line 184 reaches the setter of [Object.prototype] and makes
    the record the prototype of [sessions]. The merged set has one key, where
    the union of the existing and the incoming identifiers has two. *)
Theorem proto_id_is_not_stored :
  session_key dunder = "__proto__"
  ∧ (session_key dunder ∉ dom (sessions on_disk))
  ∧ ∃ m d w',
      merge clock (Complete on_disk) [dunder] blank = (Ok (m, d), w')
      ∧ sessions d !! session_key dunder = None
      ∧ size (sessions d) = 1
      ∧ size (dom (sessions on_disk) ∪ list_to_set (keys [dunder]) : gset string) = 2.
Proof.
  split; [reflexivity|]. split; [decided|].
  eexists _, _, _. split; [apply (merge_run clock)|].
  repeat split; by_computation.
Qed.

(** X24 on a batch that observes the same session twice. *)
Lemma batch_counts_ordinary_occurrences_witness :
  session_key seen_again ∈ keys [seen]
  ∧ (session_key seen_again ≠ "__proto__")
  ∧ (session_key seen_again ∉ keys [])
  ∧ ∃ m d w' before w1 after w2,
      merge clock (Complete empty_data) [seen; seen_again] blank = (Ok (m, d), w')
      ∧ newCount m + updatedCount m = 2
      ∧ merge_loop clock [seen] (mkMerging ∅ None 0 0) blank = (Ok before, w1)
      ∧ merge_session clock seen_again before w1 = (Ok after, w2)
      ∧ newCount after = newCount before
      ∧ updatedCount after = S (updatedCount before)
      ∧ sessions d !! session_key seen_again
        = Some (stored_record seen_again (clock 1)).
Proof.
  assert (H1 : session_key seen_again ∈ keys [seen]) by decided.
  assert (H2 : session_key seen_again ≠ "__proto__") by done.
  assert (H3 : session_key seen_again ∉ keys []) by decided.
  destruct (batch_counts_ordinary_occurrences clock empty_data [seen; seen_again] blank)
    as (m & d & w' & Hrun & _ & Hsum & _ & Hevery).
  destruct (Hevery [seen] seen_again [] eq_refl)
    as (before & w1 & after & w2 & Hbefore & Hafter & _ & Hupdated & Hlast).
  destruct (Hupdated (or_intror (conj H1 H2))) as [Hn Hu].
  split; [done|]. split; [done|]. split; [done|].
  exists m, d, w', before, w1, after, w2.
  do 6 (split; [assumption|]). by apply Hlast.
Defined.

(** C10 fails on ids that name properties of [Object.prototype]. In the
    batch [[ctor; ctor]], merged into the empty set, the first occurrence of
    the key ["constructor"] is absent from the existing set and is counted
    as updated all the same, so the batch reports no new record. In the
    batch [[dunder; dunder]] no occurrence of the key ["__proto__"] is
    stored, so the data of the last occurrence does not win: there is no
    record. In both, new and updated add up to the length of the batch. *)
Theorem repeated_inherited_id_is_never_new :
  (session_key ctor ∉ dom (sessions empty_data))
  ∧ (∃ m d w',
       merge clock (Complete empty_data) [ctor; ctor] blank = (Ok (m, d), w')
       ∧ newCount m = 0 ∧ updatedCount m = 2)
  ∧ (∃ m d w',
       merge clock (Complete empty_data) [dunder; dunder] blank = (Ok (m, d), w')
       ∧ newCount m + updatedCount m = 2
       ∧ sessions d !! session_key dunder = None).
Proof.
  split; [decided|]. split.
  - eexists _, _, _. split; [apply (merge_run clock)|]. split; by_computation.
  - eexists _, _, _. split; [apply (merge_run clock)|]. split; by_computation.
Qed.





(** X1 for machine [laptop] and a batch of two sessions. *)
Lemma sync_merges_and_persists_witness :
  truthy (known_machineId parse_identity (files laptop_world) (Str "laptop")) = true
  ∧ lookup_entry (files laptop_world) DATA_DIR (getDataFile "laptop") ≠ Some Blocked
  ∧ loaded parse_data (files laptop_world) "laptop" = Complete on_disk
  ∧ ∃ r w' m d,
      sync clock parse_data stringify_data parse_identity stringify_identity
        (Some (mkCcusage (Some [seen_again; unseen]))) "" (Str "laptop") laptop_world
      = (Ok r, w')
      ∧ machineId r = "laptop"
      ∧ data r = Complete d
      ∧ (merge clock (Complete on_disk) [seen_again; unseen] laptop_world).1 = Ok (m, d)
      ∧ lookup_entry (files w') DATA_DIR (getDataFile "laptop")
        = Some (File (stringify_data d)).
Proof.
  assert (H1 : truthy (known_machineId parse_identity (files laptop_world) (Str "laptop"))
               = true) by reflexivity.
  assert (H2 : lookup_entry (files laptop_world) DATA_DIR (getDataFile "laptop")
               ≠ Some Blocked) by (intros H; vm_compute in H; discriminate).
  assert (H3 : loaded parse_data (files laptop_world) "laptop" = Complete on_disk)
    by by_computation.
  split; [done|]. split; [done|]. split; [done|].
  exact (proj1 (sync_merges_and_persists clock parse_data stringify_data parse_identity
                  stringify_identity [seen_again; unseen] "" (Str "laptop") laptop_world
                  H1 H2) on_disk H3).
Defined.

(** X2 with a shared folder that does not exist yet. *)
Lemma exchange_tolerates_missing_directories_witness :
  files first_exchange !! "dropbox" = None
  ∧ lookup_entry (files first_exchange) "local" (usage_file "a") = Some (File "{A}")
  ∧ ∃ w',
      syncWithCloud parses "local" "dropbox" "a" first_exchange = (Ok tt, w')
      ∧ files w' !! "dropbox" = Some {[ usage_file "a" := File "{A}" ]}.
Proof.
  assert (H1 : files first_exchange !! "dropbox" = None) by by_computation.
  assert (H2 : lookup_entry (files first_exchange) "local" (usage_file "a")
               = Some (File "{A}")) by by_computation.
  split; [done|]. split; [done|].
  exact (proj1 (exchange_tolerates_missing_directories parses "local" "dropbox" "a"
                  first_exchange) "{A}" H1 H2).
Defined.

(** X3 on two exchanges in a row. *)
Lemma exchange_is_idempotent_witness :
  syncWithCloud parses "local" "cloud" "a" exchange_world
  = (Ok tt, (syncWithCloud parses "local" "cloud" "a" exchange_world).2)
  ∧ ∃ w2,
      syncWithCloud parses "local" "cloud" "a"
        (syncWithCloud parses "local" "cloud" "a" exchange_world).2 = (Ok tt, w2)
      ∧ files w2 = files (syncWithCloud parses "local" "cloud" "a" exchange_world).2.
Proof.
  assert (H1 : syncWithCloud parses "local" "cloud" "a" exchange_world
               = (Ok tt, (syncWithCloud parses "local" "cloud" "a" exchange_world).2))
    by by_computation.
  split; [exact H1|].
  exact (exchange_is_idempotent parses "local" "cloud" "a" exchange_world _ H1).
Defined.

End Witnesses.

(** * The further properties at concrete inputs *)

Section MoreWitnesses.

Import CloudSync Sync SyncSpec ExchangeSpec Identity Aggregate Server MoreSpec.
Import Demo Fixtures.

Ltac computed := vm_compute; first [reflexivity | exact I | discriminate].
Ltac refuted := let H := fresh in intros H; vm_compute in H; discriminate.

(** X5 on a host name that is already clean. *)
Lemma default_machineId_keeps_clean_names_witness :
  all_chars allowed "taylor-mbp" = true
  ∧ occurs "--" "taylor-mbp" = false
  ∧ getDefaultMachineId "taylor-mbp" = "taylor-mbp".
Proof.
  assert (H1 : all_chars allowed "taylor-mbp" = true) by reflexivity.
  assert (H2 : occurs "--" "taylor-mbp" = false) by reflexivity.
  split; [assumption|]. split; [assumption|].
  exact (proj1 (default_machineId_keeps_clean_names "taylor-mbp") H1 H2).
Defined.

(** X6 on the same name. *)
Lemma machine_of_file_recovers_identity_witness :
  occurs ".json" "taylor-mbp" = false
  ∧ machine_of_file (getDataFile "taylor-mbp") = "taylor-mbp".
Proof.
  assert (H1 : occurs ".json" "taylor-mbp" = false) by reflexivity.
  split; [assumption|].
  exact (proj1 (machine_of_file_recovers_identity "taylor-mbp" "") H1).
Defined.

(** X8 on the data directory of [desk_world]: the session of [laptop] is
    tagged, the note that is no usage file is not read. *)
Lemma aggregation_tags_sessions_last_wins_witness :
  files desk_world !! DATA_DIR = Some desk_dir
  ∧ ∃ d w',
      loadAllData parse_data desk_world = (Ok d, w')
      ∧ all_sessions d !! "-Users-taylor-Dev-app"
        = Some (<["machineId" := JStr (machine_of_file "usage-laptop.json")]>
                  (stored_record seen "2025-01-09T12:00:00.000Z")).
Proof.
  assert (H1 : files desk_world !! DATA_DIR = Some desk_dir) by computed.
  assert (H2 : "-Users-taylor-Dev-app" ≠ "__proto__") by done.
  destruct (aggregation_tags_sessions_last_wins parse_data desk_world desk_dir H1)
    as (d & w' & Hrun & Hid & _).
  split; [assumption|]. exists d, w'. split; [exact Hrun|].
  destruct (Hid "-Users-taylor-Dev-app" H2) as (Honly & _ & _).
  apply Honly; [computed|computed|].
  intros other Hne Hpat. unfold file_sessions, desk_dir.
  destruct (decide (other = "usage-desk.json")) as [->|Hdesk]; [computed|].
  destruct (decide (other = "notes.txt")) as [->|Hnotes]; [by vm_compute in Hpat|].
  rewrite lookup_insert_ne by done. rewrite lookup_insert_ne by done.
  rewrite lookup_singleton_ne by done. apply lookup_empty.
Defined.


(** X11 on a data directory that holds only [usage.json]. *)
Lemma migration_moves_without_overwriting_witness :
  lookup_entry (files legacy_world) DATA_DIR OLD_DATA_FILE = Some (File "{laptop}")
  ∧ lookup_entry (files legacy_world) DATA_DIR (getDataFile "laptop") = None
  ∧ (migrateOldData "laptop" legacy_world).1 = Ok tt
  ∧ lookup_entry (files (migrateOldData "laptop" legacy_world).2) DATA_DIR
      (getDataFile "laptop") = Some (File "{laptop}")
  ∧ lookup_entry (files (migrateOldData "laptop" legacy_world).2) DATA_DIR
      OLD_DATA_FILE = None.
Proof.
  assert (H1 : lookup_entry (files legacy_world) DATA_DIR OLD_DATA_FILE
               = Some (File "{laptop}")) by computed.
  assert (H2 : lookup_entry (files legacy_world) DATA_DIR (getDataFile "laptop") = None)
    by computed.
  assert (H3 : (migrateOldData "laptop" legacy_world).1 = Ok tt) by computed.
  destruct (migration_moves_without_overwriting "laptop" legacy_world)
    as (_ & _ & Hmoved & _).
  split; [assumption|]. split; [assumption|]. split; [assumption|].
  exact (Hmoved (File "{laptop}") H1 H2 H3).
Defined.

(** X12 for the record set [on_disk] in an empty world. *)
Lemma saved_data_is_loaded_back_witness :
  parse_data (stringify_back on_disk) = Some (Complete on_disk)
  ∧ "laptop" ≠ ""
  ∧ lookup_entry (files blank) DATA_DIR (getDataFile "laptop") ≠ Some Blocked
  ∧ ∃ w1 w2,
      saveData stringify_back on_disk "laptop" blank = (Ok tt, w1)
      ∧ loadExistingData parse_data "laptop" w1 = (Ok (Complete on_disk), w2).
Proof.
  assert (H1 : parse_data (stringify_back on_disk) = Some (Complete on_disk))
    by reflexivity.
  assert (H2 : "laptop" ≠ "") by done.
  assert (H3 : lookup_entry (files blank) DATA_DIR (getDataFile "laptop") ≠ Some Blocked)
    by refuted.
  destruct (saved_data_is_loaded_back parse_data stringify_back on_disk "laptop" blank
              H1 H2 H3) as (w1 & w2 & Hsave & Hload & _).
  split; [assumption|]. split; [assumption|]. split; [assumption|].
  exists w1, w2. by split.
Defined.

(** X13 for the identity [laptop] in an empty world. *)
Lemma saved_identity_is_read_back_witness :
  parse_identity (stringify_identity "laptop") = Some (Str "laptop")
  ∧ lookup_entry (files blank) IDENTITY_DIR IDENTITY_FILE ≠ Some Blocked
  ∧ ∃ w1 w2,
      saveMachineId stringify_identity "laptop" blank = (Ok tt, w1)
      ∧ getMachineId parse_identity w1 = (Ok (Str "laptop"), w2).
Proof.
  assert (H1 : parse_identity (stringify_identity "laptop") = Some (Str "laptop"))
    by reflexivity.
  assert (H2 : lookup_entry (files blank) IDENTITY_DIR IDENTITY_FILE ≠ Some Blocked)
    by refuted.
  destruct (saved_identity_is_read_back parse_identity stringify_identity "laptop" blank
              H1 H2) as (w1 & w2 & Hsave & Hget & _).
  split; [assumption|]. split; [assumption|]. exists w1, w2. by split.
Defined.

(** X14 on the id of a project kept in [my-app]: the id of a project [app]
    kept under [my] decodes to the same path. *)
Lemma decoded_path_has_no_dash_witness :
  "-Dev-my" ≠ ""
  ∧ decodeProjectPath (Str ("-Dev-my" +:+ "/" +:+ "app")) = Str "/Dev/my/app".
Proof.
  assert (H1 : "-Dev-my" ≠ "") by done.
  split; [assumption|].
  pose proof (decoded_path_has_no_dash "-Dev-my-app") as Hshape.
  change (decodeProjectPath (Str "-Dev-my-app")) with (Str "/Dev/my/app") in Hshape.
  destruct Hshape as (_ & _ & _ & _ & Hlossy).
  exact (Hlossy "-Dev-my" "app" H1 eq_refl).
Defined.

(** X15 on a path of four segments. *)
Lemma project_name_is_last_segment_witness :
  occurs "/" "app" = false
  ∧ getProjectName (Str ("/Users/taylor/Dev" +:+ "/" +:+ "app"))
    = if String.eqb "app" "" then "/Users/taylor/Dev" +:+ "/" else "app".
Proof.
  assert (H1 : occurs "/" "app" = false) by reflexivity.
  split; [assumption|].
  destruct (project_name_is_last_segment (Str ("/Users/taylor/Dev" +:+ "/" +:+ "app")))
    as (_ & _ & Hlast & _).
  exact (Hlast "/Users/taylor/Dev" "app" eq_refl H1).
Defined.


(** X18 where a sub-path falls to a group listed earlier. *)
Lemma subpath_keeps_a_group_witness :
  getProjectGroup (Str "/srv/site") groups = Some "Work"
  ∧ ∃ found,
      getProjectGroup (Str ("/srv/site" +:+ "/acme/web")) groups = Some found.
Proof.
  assert (H1 : getProjectGroup (Str "/srv/site") groups = Some "Work") by reflexivity.
  destruct (subpath_keeps_a_group "/srv/site" "/acme/web" groups "Work" H1)
    as (found & _ & _ & _ & Hfound & _).
  split; [assumption|]. by exists found.
Defined.


(** X20 for the record set [on_disk] saved in an empty world. *)
Lemma saved_sessions_reach_the_aggregate_witness :
  parse_data (stringify_back on_disk) = Some (Complete on_disk)
  ∧ lookup_entry (files blank) DATA_DIR (getDataFile "laptop") ≠ Some Blocked
  ∧ ∃ w1 all w2,
      saveData stringify_back on_disk "laptop" blank = (Ok tt, w1)
      ∧ loadAllData parse_data w1 = (Ok all, w2)
      ∧ machine_of_file (getDataFile "laptop") ∈ machines all
      ∧ all_sessions all !! "-Users-taylor-Dev-app"
        = Some (<["machineId" := JStr (machine_of_file (getDataFile "laptop"))]>
                  (stored_record seen "2025-01-09T12:00:00.000Z")).
Proof.
  assert (H1 : parse_data (stringify_back on_disk) = Some (Complete on_disk))
    by reflexivity.
  assert (H2 : lookup_entry (files blank) DATA_DIR (getDataFile "laptop") ≠ Some Blocked)
    by refuted.
  destruct (saved_sessions_reach_the_aggregate parse_data stringify_back on_disk
              "laptop" blank H1 H2)
    as (w1 & all & w2 & Hsave & Hload & _ & Hlisted & Hsessions).
  split; [assumption|]. split; [assumption|]. exists w1, all, w2.
  split; [exact Hsave|]. split; [exact Hload|]. split; [exact Hlisted|].
  apply Hsessions; [done|computed|].
  intros other content parsed found _ _ Hentry. vm_compute in Hentry. discriminate.
Defined.

(** X21 where the shared folder of [desk_world] holds the file of [phone]. *)
Lemma pulled_peer_reaches_the_aggregate_witness :
  files desk_world !! "cloud" = Some {[ usage_file "phone" := File "{laptop}" ]}
  ∧ "phone" ≠ "laptop"
  ∧ parses "{laptop}" = true
  ∧ lookup_entry (files desk_world) DATA_DIR (usage_file "phone") ≠ Some Blocked
  ∧ ∃ w1 all w2,
      syncFromCloud parses DATA_DIR "cloud" "laptop" desk_world = (Ok tt, w1)
      ∧ lookup_entry (files w1) DATA_DIR (usage_file "phone") = Some (File "{laptop}")
      ∧ loadAllData parse_data w1 = (Ok all, w2)
      ∧ machine_of_file (usage_file "phone") ∈ machines all.
Proof.
  assert (H1 : files desk_world !! "cloud"
               = Some {[ usage_file "phone" := File "{laptop}" ]}) by computed.
  assert (H2 : ({[ usage_file "phone" := File "{laptop}" ]} : directory)
                 !! usage_file "phone" = Some (File "{laptop}")) by computed.
  assert (H3 : "phone" ≠ "laptop") by done.
  assert (H4 : parses "{laptop}" = true) by reflexivity.
  assert (H5 : lookup_entry (files desk_world) DATA_DIR (usage_file "phone")
               ≠ Some Blocked) by refuted.
  destruct (pulled_peer_reaches_the_aggregate parses parse_data "cloud" "laptop" "phone"
              "{laptop}" _ desk_world H1 H2 H3 H4 H5)
    as (w1 & L & all & w2 & Hpull & HL & Hfile & Hload & Hlisted & _).
  split; [assumption|]. split; [assumption|]. split; [assumption|].
  split; [assumption|]. exists w1, all, w2.
  split; [exact Hpull|]. split; [|split; [exact Hload|exact Hlisted]].
  unfold lookup_entry. rewrite HL. exact Hfile.
Defined.

End MoreWitnesses.
